(** * Composable integer states and the Monte-Carlo probability estimator

    A shallow embedding of [main.cpp]: the [IState] class hierarchy
    ([DiscreteState], [SegmentState], [InverseState], [IntersectState],
    [UnifyState]) and [ProbabilityTest::test].

    Modelling choices, all read off the source:
    - [State] is [int]; it is only ever compared, never computed with, so
      it is a [Z] and the comparisons are the exact ones.
    - [InverseState] and [IntersectState] hold their children through
      [const IState*]; a pointer is an [option] ([None] is [nullptr]).
      [UnifyState] holds references, which are always bound.
    - Dereferencing [nullptr] has no defined meaning in C++; evaluation
      then yields the outcome [NullDeref] and nothing else is said about it.
    - [unsigned] counters are [Z] with the wrap-around modulo [2^32]
      written out.
    - [float] is IEEE-754 binary32, given by the parameterised operations
      of [SpecFloat] at precision 24 and maximal exponent 128.
    - [std::default_random_engine] and [std::uniform_int_distribution<int>]
      are implementation-defined; they enter as an interface
      ([UniformRandom]) and every result holds for each implementation. *)

From Stdlib Require Import ZArith Znumtheory List Bool Lia.
From Stdlib Require Import Floats.SpecFloat.
Import ListNotations.
Local Open Scope Z_scope.

(** ** Outcomes of an evaluation *)

Inductive result (A : Type) : Type :=
| Done (a : A)        (* normal completion with a value *)
| NullDeref           (* [p->contains(s)] with [p == nullptr] *)
| OutOfFuel.          (* the loop was cut before its exit condition held *)

Arguments Done {A} a.
Arguments NullDeref {A}.
Arguments OutOfFuel {A}.

Definition rbind {A B} (r : result A) (k : A -> result B) : result B :=
  match r with
  | Done a => k a
  | NullDeref => NullDeref
  | OutOfFuel => OutOfFuel
  end.

Definition rmap {A B} (f : A -> B) (r : result A) : result B :=
  rbind r (fun a => Done (f a)).

Declare Scope result_scope.
Delimit Scope result_scope with result.
Notation "x <- r ;; k" := (rbind r (fun x => k))
  (at level 61, r at next level, right associativity) : result_scope.
Local Open Scope result_scope.

(** ** The state classes *)

Definition State := Z.

#[warnings="-register-all"]
Inductive IState : Type :=
| DiscreteState (s0 : State)
| SegmentState (begin_s0 end_s0 : State)
| InverseState (base : option IState)
| IntersectState (first second : option IState)
| UnifyState (first second : IState).

(** [virtual bool contains(State) const], one clause per override.  [&&]
    and [||] evaluate their right operand only when the left one does not
    decide. *)
Fixpoint contains (st : IState) (s : State) : result bool :=
  match st with
  | DiscreteState s0 => Done (s =? s0)
  | SegmentState begin_s0 end_s0 => Done ((begin_s0 <=? s) && (end_s0 >=? s))
  | InverseState base =>
      match base with
      | None => NullDeref
      | Some b => x <- contains b s ;; Done (negb x)
      end
  | IntersectState first second =>
      match first with
      | None => NullDeref
      | Some f =>
          x <- contains f s ;;
          if x then
            match second with
            | None => NullDeref
            | Some g => contains g s
            end
          else Done false
      end
  | UnifyState first second =>
      x <- contains first s ;;
      if x then Done true else contains second s
  end.

(** The factories of [InverseState] and [IntersectState]. *)
Module InverseState.
Definition create0 : IState := InverseState None.
Definition create (base : option IState) : IState := InverseState base.
End InverseState.

Module IntersectState.
Definition create0 : IState := IntersectState None None.
Definition create (first second : option IState) : IState :=
  IntersectState first second.
End IntersectState.

(** A state none of whose pointers is null. *)
Fixpoint well_formed (st : IState) : bool :=
  match st with
  | DiscreteState _ | SegmentState _ _ => true
  | InverseState base =>
      match base with None => false | Some b => well_formed b end
  | IntersectState first second =>
      match first, second with
      | Some f, Some g => well_formed f && well_formed g
      | _, _ => false
      end
  | UnifyState first second => well_formed first && well_formed second
  end.

(** The membership test as a plain boolean: the value of [contains]
    where it has one. *)
Definition member (st : IState) (s : State) : bool :=
  match contains st s with
  | Done b => b
  | _ => false
  end.

(** ** binary32 *)

Module Float32.
Definition prec : Z := 24.
Definition emax : Z := 128.

Definition float := spec_float.

(** [static_cast<float>(u)] for an [unsigned] value, rounding to nearest,
    ties to even. *)
Definition of_uint (u : Z) : float := binary_normalize prec emax u 0 false.

Definition div (x y : float) : float := SFdiv prec emax x y.

Definition zero : float := S754_zero false.
Definition one : float := SFone prec emax.
Definition nan : float := S754_nan.

Definition leb (x y : float) : bool := SFleb x y.

(** What follows describes the operations above in integer arithmetic;
    it is used to reason about them, never to compute [test]. *)

(** [m / 2^k] rounded to nearest, ties to even. *)
Definition rne (m k : Z) : Z :=
  let q := m / 2 ^ k in
  match 2 * (m mod 2 ^ k) ?= 2 ^ k with
  | Lt => q
  | Eq => if Z.even q then q else q + 1
  | Gt => q + 1
  end.

(** The mantissa that [binary_round_aux] reaches from the mantissa [m]
    at location [l] by [k] right shifts and the rounding. *)
Definition round_shift (m : Z) (l : location) (k : nat) : Z :=
  let mrs := Nat.iter k shr_1 (shr_record_of_loc m l) in
  round_nearest_even (shr_m mrs) (loc_of_shr_record mrs).

(** Mantissa and exponent of the binary32 number nearest to the
    integer [1 <= u < 2^32]. *)
Definition norm (u : Z) : Z * Z :=
  let d := Z.log2 u + 1 in
  if d <=? 24 then (u * 2 ^ (24 - d), d - 24)
  else
    let m1 := rne u (d - 24) in
    if m1 =? 2 ^ 24 then (2 ^ 23, d - 23) else (m1, d - 24).
End Float32.

(** ** The random source *)

(** What [test] uses of [<random>]: an engine built from a seed
    ([std::default_random_engine reng(seed)]) and one draw of
    [std::uniform_int_distribution<int> dstr(a, b)], which returns a value
    and leaves the engine in its next state. *)
Class UniformRandom : Type := {
  engine : Type;
  seed_engine : Z -> engine;
  uniform_int : Z -> Z -> engine -> Z * engine
}.

(** The library's guarantee on the values of a distribution over [a, b]. *)
Class UniformRandomInRange (R : UniformRandom) : Prop :=
  uniform_int_in_range :
    forall a b g, a <= b -> a <= fst (uniform_int a b g) <= b.

(** The implementation the program runs on with GCC's library:
    [std::default_random_engine] is [minstd_rand0], the linear
    congruential engine with multiplier 16807 and modulus 2^31 - 1, and
    [std::uniform_int_distribution] scales its outputs into the range by
    division, rejecting the outputs of the incomplete last stretch. *)
Module Minstd.
Definition modulus : Z := 2147483647.
Definition multiplier : Z := 16807.

(** [seed(s)]: the seed modulo the modulus, or 1 when that is 0. *)
Definition seed (s : Z) : Z :=
  if s mod modulus =? 0 then 1 else s mod modulus.

(** [operator()] of the engine: the state is multiplied by the
    multiplier modulo the modulus, and is the output.  The states are the
    integers from 1 to the modulus less 1, on which [seed] is the
    identity; it is applied so that [next] yields a state of the engine on
    every integer. *)
Definition next (x : Z) : Z := (multiplier * seed x) mod modulus.

(** The outputs range from [min() = 1] to [max() = modulus - 1]. *)
Definition urngmin : Z := 1.

Definition urngrange : Z := modulus - 1 - urngmin.

(** The library draws again, without bound, while the output is rejected;
    here the number of calls is bounded and, the bound exhausted, the
    lower end of the range is returned. *)
Definition retries : nat := 64.

(** [uniform_int_distribution::operator()], up to the final addition of
    the lower end, for a range of width [urange]: narrower than the
    engine's, the output is divided by [scaling] unless it lies at or past
    the last multiple of it (downscaling); wider, a draw of the high part
    is combined with an output for the low part (upscaling); equal, the
    output is taken as it is.  The library computes in 64-bit unsigned
    integers, which no value here exceeds for 32-bit ends of the range. *)
Fixpoint sample (fuel : nat) (urange : Z) (x : Z) : Z * Z :=
  match fuel with
  | O => (0, x)
  | S fuel' =>
      if urange <? urngrange then
        let uerange := urange + 1 in
        let scaling := urngrange / uerange in
        let past := uerange * scaling in
        let x' := next x in
        let ret := x' - urngmin in
        if past <=? ret then sample fuel' urange x' else (ret / scaling, x')
      else if urngrange <? urange then
        let uerngrange := urngrange + 1 in
        let (high, x1) := sample fuel' (urange / uerngrange) x in
        let tmp := uerngrange * high in
        let x2 := next x1 in
        let ret := tmp + (x2 - urngmin) in
        if urange <? ret then sample fuel' urange x2 else (ret, x2)
      else
        let x' := next x in (x' - urngmin, x')
  end.

(** [dstr(reng)] for the distribution over [a, b]. *)
Definition draw (a b : Z) (x : Z) : Z * Z :=
  let (ret, x') := sample retries (b - a) x in (a + ret, x').

#[export] Instance random : UniformRandom :=
  {| engine := Z; seed_engine := seed; uniform_int := draw |}.
End Minstd.

(** ** The estimator *)

(** Computations of [test]: they may append to the log of the values
    drawn so far (a ghost record of the calls [dstr(reng)]), and end with
    a [result]. *)
Definition M (A : Type) : Type := list Z -> result (A * list Z).

Definition ret {A} (a : A) : M A := fun log => Done (a, log).

Definition bind {A B} (m : M A) (k : A -> M B) : M B :=
  fun log =>
    match m log with
    | Done (a, log') => k a log'
    | NullDeref => NullDeref
    | OutOfFuel => OutOfFuel
    end.

Definition lift {A} (r : result A) : M A :=
  fun log => p <- r ;; Done (p, log).

Declare Scope comp_scope.
Delimit Scope comp_scope with comp.
Notation "x <~ m ;; k" := (bind m (fun x => k))
  (at level 61, m at next level, right associativity) : comp_scope.
Notation "' pat <~ m ;; k" := (bind m (fun x => match x with pat => k end))
  (at level 61, pat pattern, m at next level, right associativity) : comp_scope.

Definition uint_max : Z := 2 ^ 32.

(** [u++] on an [unsigned]. *)
Definition uint_succ (u : Z) : Z := (u + 1) mod uint_max.

Record ProbabilityTest : Type := { E_min : State; E_max : State }.

Section Test.
Context {R : UniformRandom}.
Variable self : ProbabilityTest.

(** [dstr(reng)]: one value of the distribution over [E_min, E_max];
    the engine advances and the value is logged. *)
Definition dstr (reng : engine) : M (Z * engine) :=
  fun log =>
    let (v, reng') := uniform_int (E_min self) (E_max self) reng in
    Done ((v, reng'), log ++ [v]).

(** The locals of [test] that the loop updates. *)
Record locals : Type := { cnt : Z; good : Z; reng : engine }.

Variable system : IState.
Variable test_count : Z.

(** [for (unsigned cnt = 0; cnt != test_count; cnt++)
      if (system.contains(dstr(reng))) good++;]
    entered with the locals [l]; [fuel] bounds the number of iterations. *)
Fixpoint for_loop (fuel : nat) (l : locals) : M locals :=
  if cnt l =? test_count then ret l
  else
    match fuel with
    | O => fun _ => OutOfFuel
    | S fuel' =>
        ('(v, reng') <~ dstr (reng l) ;;
         b <~ lift (contains system v) ;;
         let good' := if b then uint_succ (good l) else good l in
         for_loop fuel' {| cnt := uint_succ (cnt l); good := good'; reng := reng' |})%comp
    end.

Definition test_fuel (fuel : nat) (seed : Z) : M Float32.float :=
  (let reng0 := seed_engine seed in
   '(_, reng1) <~ dstr reng0 ;;
   l <~ for_loop fuel {| cnt := 0; good := 0; reng := reng1 |} ;;
   ret (Float32.div (Float32.of_uint (good l)) (Float32.of_uint test_count)))%comp.

(** [test], with as many iterations allowed as the loop can need. *)
Definition test (seed : Z) : M Float32.float :=
  test_fuel (Z.to_nat test_count) seed.
End Test.

(** ** Specification-level functions *)

Section Draws.
Context {R : UniformRandom}.

(** The first [k] values of the distribution over [a, b] from the engine
    state [g], with the state reached. *)
Fixpoint draws (a b : Z) (g : engine) (k : nat) : list Z * engine :=
  match k with
  | O => ([], g)
  | S k' =>
      let (v, g') := uniform_int a b g in
      let (vs, g'') := draws a b g' k' in
      (v :: vs, g'')
  end.
End Draws.

(** Evaluating [contains] along a list of values, counting the hits on top
    of [good]. *)
Fixpoint tally (system : IState) (vs : list Z) (good : Z) : result Z :=
  match vs with
  | [] => Done good
  | v :: vs' =>
      b <- contains system v ;;
      tally system vs' (if b then good + 1 else good)
  end.

(** How many of the values the state contains. *)
Definition hits (system : IState) (vs : list Z) : Z :=
  Z.of_nat (length (filter (member system) vs)).

(** [count / n] in binary32, as [test] computes it. *)
Definition fraction (count n : Z) : Float32.float :=
  Float32.div (Float32.of_uint count) (Float32.of_uint n).

(** An evaluation stays within defined behaviour. *)
Definition defined_behaviour {A} (r : result A) : Prop := r <> NullDeref.

(** ** The states as sets *)

(** The set of values a state stands for, read as plain boolean algebra
    (complement, intersection, union); a null pointer stands for nothing. *)
Fixpoint denote (st : IState) (s : State) : bool :=
  match st with
  | DiscreteState s0 => s =? s0
  | SegmentState begin_s0 end_s0 => (begin_s0 <=? s) && (s <=? end_s0)
  | InverseState base =>
      match base with None => false | Some b => negb (denote b s) end
  | IntersectState first second =>
      match first, second with
      | Some f, Some g => denote f s && denote g s
      | _, _ => false
      end
  | UnifyState first second => denote first s || denote second s
  end.

(** ** The quotient of two normal binary32 numbers, in integers *)

(** Mantissa and exponent of the rounded quotient of the mantissas
    [ma] and [mb] (24 bits each), [e0] being the difference of the
    exponents less 24: the integer quotient of [ma * 2^24] by [mb] has 24
    or 25 bits, is shifted by none or one, rounded by the remainder, and
    renormalised if the rounding carried. *)
Definition normal_quotient (ma mb e0 : Z) : Z * Z :=
  let (q, r) := Z.div_eucl (ma * 2 ^ 24) mb in
  let k := if q <? 2 ^ 24 then 0 else 1 in
  let m1 := Float32.round_shift q (new_location mb r) (Z.to_nat k) in
  if m1 =? 2 ^ 24 then (2 ^ 23, e0 + k + 1) else (m1, e0 + k).

(** ** Objects, pointers and destruction *)

(** The states as the classes lay them out: objects in a store, the
    composite ones holding the addresses of their operands.
    [InverseState] and [IntersectState] hold pointers, which may be null
    and which their destructors [delete]; [UnifyState] holds references
    and has no destructor of its own. *)
Definition addr := nat.

Inductive object : Type :=
| ODiscrete (s0 : State)
| OSegment (begin_s0 end_s0 : State)
| OInverse (base : option addr)
| OIntersect (first second : option addr)
| OUnify (first second : addr).

(** The objects alive, by address. *)
Definition heap := addr -> option object.

Definition empty_heap : heap := fun _ => None.

(** [new]: the object [o] comes to life at the address [a]. *)
Definition alloc (a : addr) (o : object) (h : heap) : heap :=
  fun x => if Nat.eqb x a then Some o else h x.

(** The end of the life of the object at [a]. *)
Definition free (a : addr) (h : heap) : heap :=
  fun x => if Nat.eqb x a then None else h x.

Inductive fault : Type :=
| NullPointer    (* use of a null pointer *)
| Dangling.      (* use, or second deletion, of an object no longer alive *)

Inductive outcome (A : Type) : Type :=
| Ok (a : A)
| Fault (f : fault)
| Exhausted.

Arguments Ok {A} a.
Arguments Fault {A} f.
Arguments Exhausted {A}.

Definition obind {A B} (r : outcome A) (k : A -> outcome B) : outcome B :=
  match r with
  | Ok a => k a
  | Fault f => Fault f
  | Exhausted => Exhausted
  end.

(** [contains], dispatched on the object found at the address; [fuel]
    bounds the depth of the calls. *)
Fixpoint contains_at (fuel : nat) (h : heap) (a : addr) (s : State) : outcome bool :=
  match fuel with
  | O => Exhausted
  | S k =>
      match h a with
      | None => Fault Dangling
      | Some (ODiscrete s0) => Ok (s =? s0)
      | Some (OSegment begin_s0 end_s0) => Ok ((begin_s0 <=? s) && (end_s0 >=? s))
      | Some (OInverse base) =>
          match base with
          | None => Fault NullPointer
          | Some b => obind (contains_at k h b s) (fun x => Ok (negb x))
          end
      | Some (OIntersect first second) =>
          match first with
          | None => Fault NullPointer
          | Some f =>
              obind (contains_at k h f s) (fun x =>
                if x then
                  match second with
                  | None => Fault NullPointer
                  | Some g => contains_at k h g s
                  end
                else Ok false)
          end
      | Some (OUnify first second) =>
          obind (contains_at k h first s) (fun x =>
            if x then Ok true else contains_at k h second s)
      end
  end.

(** The destructor bodies: [~InverseState() { delete base; }],
    [~IntersectState() { delete first; delete second; }]; the other
    classes have nothing to do.  [del] is [delete]. *)
Definition destructor (del : option addr -> heap -> outcome heap)
    (o : object) (h : heap) : outcome heap :=
  match o with
  | OInverse base => del base h
  | OIntersect first second => obind (del first h) (del second)
  | ODiscrete _ | OSegment _ _ | OUnify _ _ => Ok h
  end.

(** [delete p]: nothing for a null pointer; otherwise the destructor of
    the object runs and then the object's life ends.  Deleting an object
    that is not alive is a fault.  [fuel] bounds the depth of the calls. *)
Fixpoint delete (fuel : nat) (p : option addr) (h : heap) : outcome heap :=
  match p with
  | None => Ok h
  | Some a =>
      match fuel with
      | O => Exhausted
      | S k =>
          match h a with
          | None => Fault Dangling
          | Some o => obind (destructor (delete k) o h) (fun h' => Ok (free a h'))
          end
      end
  end.

(** The heap once the objects at the addresses [fp] have ended their
    lives, in that order. *)
Definition release (fp : list addr) (h : heap) : heap :=
  fold_left (fun h' a => free a h') fp h.

(** [owned h p fp]: what [p] points to is a tree of objects held through
    owning pointers, each object in it reached once; [fp] lists their
    addresses in the order a deletion ends their lives.  The operands of a
    [UnifyState] are referred to, not owned. *)
Inductive owned (h : heap) : option addr -> list addr -> Prop :=
| owned_null : owned h None []
| owned_discrete a s0 :
    h a = Some (ODiscrete s0) -> owned h (Some a) [a]
| owned_segment a b e :
    h a = Some (OSegment b e) -> owned h (Some a) [a]
| owned_unify a f g :
    h a = Some (OUnify f g) -> owned h (Some a) [a]
| owned_inverse a base fp :
    h a = Some (OInverse base) ->
    owned h base fp -> ~ In a fp ->
    owned h (Some a) (fp ++ [a])
| owned_intersect a f g fp1 fp2 :
    h a = Some (OIntersect f g) ->
    owned h f fp1 -> owned h g fp2 ->
    (forall x, In x fp1 -> ~ In x fp2) ->
    ~ In a (fp1 ++ fp2) ->
    owned h (Some a) (fp1 ++ fp2 ++ [a]).

(** [represents h a st]: the object at [a], with the objects it points
    and refers to, has the shape of the state [st]; objects may be
    reached more than once. *)
Inductive represents (h : heap) : addr -> IState -> Prop :=
| rep_discrete a s0 :
    h a = Some (ODiscrete s0) -> represents h a (DiscreteState s0)
| rep_segment a b e :
    h a = Some (OSegment b e) -> represents h a (SegmentState b e)
| rep_inverse a base st :
    h a = Some (OInverse base) -> represents_ptr h base st ->
    represents h a (InverseState st)
| rep_intersect a f g sf sg :
    h a = Some (OIntersect f g) ->
    represents_ptr h f sf -> represents_ptr h g sg ->
    represents h a (IntersectState sf sg)
| rep_unify a f g sf sg :
    h a = Some (OUnify f g) ->
    represents h f sf -> represents h g sg ->
    represents h a (UnifyState sf sg)
with represents_ptr (h : heap) : option addr -> option IState -> Prop :=
| rep_null : represents_ptr h None None
| rep_some a st : represents h a st -> represents_ptr h (Some a) (Some st).

(** The depth of the calls that evaluating a state can need. *)
Fixpoint height (st : IState) : nat :=
  match st with
  | DiscreteState _ | SegmentState _ _ => 1
  | InverseState base =>
      S (match base with None => 0 | Some b => height b end)
  | IntersectState first second =>
      S (Nat.max (match first with None => 0 | Some f => height f end)
                 (match second with None => 0 | Some g => height g end))
  | UnifyState first second => S (Nat.max (height first) (height second))
  end.

(** The outcomes of the two evaluations, side by side. *)
Definition to_outcome {A} (r : result A) : outcome A :=
  match r with
  | Done a => Ok a
  | NullDeref => Fault NullPointer
  | OutOfFuel => Exhausted
  end.

(** ** Construction *)

(** The objects alive together with the allocator's next address:
    nothing lives at [next] or beyond. *)
Record store : Type := { objects : heap; next : addr }.

(** [new T(...)]: the object comes to life at a fresh address, which is
    returned. *)
Definition new (o : object) (m : store) : addr * store :=
  (next m, {| objects := alloc (next m) o (objects m); next := S (next m) |}).

(** Building the objects of a state, operands first, each with [new]:
    [InverseState::create] and [IntersectState::create] receive the
    pointers to the operands built before (null for an absent one), and
    [UnifyState] is constructed on the two objects built before. *)
Fixpoint build (st : IState) (m : store) : addr * store :=
  match st with
  | DiscreteState s0 => new (ODiscrete s0) m
  | SegmentState begin_s0 end_s0 => new (OSegment begin_s0 end_s0) m
  | InverseState base =>
      match base with
      | None => new (OInverse None) m
      | Some b => let (pb, m1) := build b m in new (OInverse (Some pb)) m1
      end
  | IntersectState first second =>
      let (pf, m1) :=
        match first with
        | None => (None, m)
        | Some f => let (a, m') := build f m in (Some a, m')
        end in
      let (pg, m2) :=
        match second with
        | None => (None, m1)
        | Some g => let (a, m') := build g m1 in (Some a, m')
        end in
      new (OIntersect pf pg) m2
  | UnifyState first second =>
      let (pf, m1) := build first m in
      let (pg, m2) := build second m1 in
      new (OUnify pf pg) m2
  end.

(** A state held together by owning pointers only. *)
Fixpoint unify_free (st : IState) : bool :=
  match st with
  | DiscreteState _ | SegmentState _ _ => true
  | InverseState base =>
      match base with None => true | Some b => unify_free b end
  | IntersectState first second =>
      match first with None => true | Some f => unify_free f end &&
      match second with None => true | Some g => unify_free g end
  | UnifyState _ _ => false
  end.

(** ** Assignment *)

(** [DiscreteState::operator=] and [SegmentState::operator=], on the
    object at [a] with the object at [b] as right operand: the fields of
    the right operand are copied over those of the left one.  Both objects
    have to be alive and of the class of the operator. *)
Definition DiscreteState_assign (a b : addr) (h : heap) : outcome heap :=
  match h a, h b with
  | Some (ODiscrete _), Some (ODiscrete s0) => Ok (alloc a (ODiscrete s0) h)
  | _, _ => Fault Dangling
  end.

Definition SegmentState_assign (a b : addr) (h : heap) : outcome heap :=
  match h a, h b with
  | Some (OSegment _ _), Some (OSegment begin_s0 end_s0) =>
      Ok (alloc a (OSegment begin_s0 end_s0) h)
  | _, _ => Fault Dangling
  end.

(** What building a state in the store [m] achieves: the root [a] is the
    last object allocated, the store [m'] differs from [m] only on the
    addresses allocated in between, and any heap that holds these objects
    has at [a] the shape of [st] and, for a state held together by owning
    pointers, owns exactly them. *)
Definition built (st : IState) (m : store) (a : addr) (m' : store) : Prop :=
  next m' = S a /\ (next m <= a)%nat /\
  (forall x, (x < next m)%nat \/ (next m' <= x)%nat ->
             objects m' x = objects m x) /\
  (forall h : heap,
     (forall x, (next m <= x < next m')%nat -> h x = objects m' x) ->
     represents h a st /\
     (unify_free st = true ->
      owned h (Some a) (seq (next m) (next m' - next m)))).

(** * Properties of the states *)

Section IStateInduction.
Variable P : IState -> Prop.
Hypothesis HDiscrete : forall s0, P (DiscreteState s0).
Hypothesis HSegment : forall b e, P (SegmentState b e).
Hypothesis HInverseNull : P (InverseState None).
Hypothesis HInverse : forall b, P b -> P (InverseState (Some b)).
Hypothesis HIntersect :
  forall f g,
    (forall x, f = Some x -> P x) -> (forall y, g = Some y -> P y) ->
    P (IntersectState f g).
Hypothesis HUnify : forall f g, P f -> P g -> P (UnifyState f g).

(** Induction over a state, through the pointers it holds. *)
Lemma IState_induction : forall st : IState, P st.
Proof.
  fix IH 1. intros [s0 | b e | [b|] | f g | f g].
  - apply HDiscrete.
  - apply HSegment.
  - apply HInverse, IH.
  - apply HInverseNull.
  - apply HIntersect.
    + intros x Hx. destruct f as [f'|]; [|discriminate].
      injection Hx as <-. apply IH.
    + intros y Hy. destruct g as [g'|]; [|discriminate].
      injection Hy as <-. apply IH.
  - apply HUnify; apply IH.
Qed.
End IStateInduction.

Lemma well_formed_contains (st : IState) (s : State) :
  well_formed st = true -> exists b, contains st s = Done b.
Proof.
  induction st using IState_induction; simpl; intros Hwf.
  - eauto.
  - eauto.
  - discriminate.
  - destruct (IHst Hwf) as [x ->]. simpl. eauto.
  - destruct f as [f'|]; [|discriminate].
    destruct g as [g'|]; [|discriminate].
    apply andb_true_iff in Hwf as [Hf Hg].
    destruct (H f' eq_refl Hf) as [x ->]. simpl.
    destruct x; [apply (H0 g' eq_refl Hg) | eauto].
  - apply andb_true_iff in Hwf as [Hf Hg].
    destruct (IHst1 Hf) as [x ->]. simpl.
    destruct x; [eauto | apply (IHst2 Hg)].
Qed.

Lemma well_formed_member (st : IState) (s : State) :
  well_formed st = true -> contains st s = Done (member st s).
Proof.
  intros Hwf. unfold member.
  destruct (well_formed_contains st s Hwf) as [b ->]. reflexivity.
Qed.

(** C7. [SegmentState(lo, hi).contains(s)] always has a value; when
    [lo <= hi] the value is true exactly when [lo <= s <= hi], and when
    [lo > hi] it is false for every [s]. *)
Theorem SegmentState_contains_spec (lo hi s : State) :
  (lo <= hi ->
   exists b, contains (SegmentState lo hi) s = Done b /\
             (b = true <-> lo <= s <= hi)) /\
  (lo > hi -> contains (SegmentState lo hi) s = Done false).
Proof.
  split.
  - intros _. eexists. split; [reflexivity|].
    rewrite andb_true_iff, Z.leb_le, Z.geb_le. reflexivity.
  - intros Hinv. simpl. f_equal.
    apply andb_false_iff.
    destruct (Z.leb_spec lo s); [right | left; reflexivity].
    rewrite Z.geb_leb. apply Z.leb_gt. lia.
Qed.

Lemma SegmentState_contains_witness :
  (exists b, contains (SegmentState 0 500) 500 = Done b /\
             (b = true <-> 0 <= 500 <= 500)) /\
  contains (SegmentState 5 1) 3 = Done false.
Proof.
  split.
  - apply (proj1 (SegmentState_contains_spec 0 500 500)). lia.
  - apply (proj2 (SegmentState_contains_spec 5 1 3)). lia.
Defined.

(** C8. De Morgan: on every value, the inverse of an intersection
    evaluates as the union of the inverses, whatever the two states are
    (also when one of them has no value there). *)
Theorem de_morgan_inverse_intersect (a b : IState) (s : State) :
  contains (InverseState.create (Some (IntersectState.create (Some a) (Some b)))) s
  = contains (UnifyState (InverseState.create (Some a)) (InverseState.create (Some b))) s.
Proof.
  simpl.
  destruct (contains a s) as [[|] | |]; reflexivity.
Qed.

(** C9. The inverse of a state with a base evaluates to the negation of
    the base's value, and inverting twice gives the base's evaluation back. *)
Theorem inverse_negates_and_involutive (p : IState) (s : State) :
  contains (InverseState.create (Some p)) s = rmap negb (contains p s) /\
  contains (InverseState.create (Some (InverseState.create (Some p)))) s
  = contains p s.
Proof.
  split; simpl.
  - reflexivity.
  - destruct (contains p s) as [x | |]; simpl; [|reflexivity..].
    now rewrite negb_involutive.
Qed.

(** C3, as the code has it: [InverseState::create()] succeeds and yields
    an object whose base is null, and [contains] on that object
    dereferences the null pointer for every argument; no error is raised
    at construction or at use. *)
Theorem inverse_of_nothing_dereferences_null (s : State) :
  InverseState.create0 = InverseState None /\
  contains InverseState.create0 s = NullDeref.
Proof. split; reflexivity. Qed.

(** C3 fails as stated: evaluating the inverse of nothing leaves defined
    behaviour. *)
Lemma inverse_of_nothing_not_defined :
  ~ defined_behaviour (contains InverseState.create0 0).
Proof. intros H. apply H. reflexivity. Qed.

(** * Properties of binary32 conversion and division *)

(** The number of binary digits, as [SpecFloat] counts them. *)
Lemma digits2_pos_size (p : positive) : digits2_pos p = Pos.size p.
Proof. induction p; simpl; congruence. Qed.

Lemma Zdigits2_log2 (p : positive) :
  Zdigits2 (Zpos p) = Z.log2 (Zpos p) + 1.
Proof.
  simpl. rewrite digits2_pos_size. destruct p; simpl; lia.
Qed.

Lemma Zdigits2_unique (m d : Z) :
  2 ^ (d - 1) <= m < 2 ^ d -> 0 < d -> Zdigits2 m = d.
Proof.
  intros Hm Hd.
  assert (0 < m) as Hpos by (pose proof (Z.pow_pos_nonneg 2 (d - 1)); lia).
  destruct m as [|p|p]; try lia.
  rewrite Zdigits2_log2, (Z.log2_unique (Zpos p) (d - 1)); try lia.
  now replace (Z.succ (d - 1)) with d by lia.
Qed.

(** [SpecFloat]'s iteration is iteration. *)
Lemma iter_pos_nat {A} (f : A -> A) (p : positive) :
  forall x, iter_pos f p x = Nat.iter (Pos.to_nat p) f x.
Proof.
  induction p as [p IH | p IH |]; intros x; simpl iter_pos.
  - rewrite !IH, Pos2Nat.inj_xI, <- Nat.iter_succ_r, <- Nat.iter_add.
    f_equal. lia.
  - rewrite !IH, Pos2Nat.inj_xO, <- Nat.iter_add. f_equal. lia.
  - reflexivity.
Qed.

(** One right shift halves the mantissa, keeps the bit shifted out as the
    round bit and accumulates the earlier ones in the sticky bit. *)
Lemma shr_1_nonneg (m : Z) (r s : bool) :
  0 <= m ->
  shr_1 {| shr_m := m; shr_r := r; shr_s := s |}
  = {| shr_m := m / 2; shr_r := Z.odd m; shr_s := r || s |}.
Proof.
  intros Hm. rewrite <- Z.div2_div.
  destruct m as [|[p|p|]|p]; try reflexivity. lia.
Qed.

Lemma shr_m_iter (k : nat) :
  forall mrs, 0 <= shr_m mrs ->
    shr_m (Nat.iter k shr_1 mrs) = shr_m mrs / 2 ^ Z.of_nat k.
Proof.
  induction k as [|k IH]; intros [m r s] Hm; simpl in Hm.
  - simpl. now rewrite Z.div_1_r.
  - rewrite Nat.iter_succ_r, shr_1_nonneg by assumption.
    rewrite IH; cbn [shr_m].
    + rewrite Nat2Z.inj_succ, Z.pow_succ_r by lia.
      now rewrite Z.div_div by lia.
    + apply Z.div_pos; lia.
Qed.

Lemma round_nearest_even_bounds (m : Z) (l : location) :
  m <= round_nearest_even m l <= m + 1.
Proof.
  destruct l as [|[ | | ]]; simpl; try lia. destruct (Z.even m); lia.
Qed.

Lemma round_shift_bounds (m : Z) (l : location) (k : nat) :
  0 <= m ->
  m / 2 ^ Z.of_nat k <= Float32.round_shift m l k <= m / 2 ^ Z.of_nat k + 1.
Proof.
  intros Hm. unfold Float32.round_shift.
  assert (shr_m (shr_record_of_loc m l) = m) as Hrec
    by now destruct l as [|[ | | ]].
  pose proof (shr_m_iter k (shr_record_of_loc m l)) as Hiter.
  rewrite Hrec in Hiter. rewrite <- Hiter by assumption.
  apply round_nearest_even_bounds.
Qed.

Lemma mod_pow2_succ (m k : Z) :
  0 <= k ->
  m mod 2 ^ (k + 1) = 2 ^ k * Z.b2z (Z.odd (m / 2 ^ k)) + m mod 2 ^ k.
Proof.
  intros Hk.
  assert (0 < 2 ^ k) as Hpow by (apply Z.pow_pos_nonneg; lia).
  rewrite Z.pow_add_r, Z.pow_1_r, Z.rem_mul_r by lia.
  rewrite <- Z.bit0_mod, Z.bit0_odd. lia.
Qed.

(** After [k + 1] shifts of an exact mantissa: quotient, last bit out and
    whether anything below it was set. *)
Lemma iter_shr_exact (k : nat) (m : Z) :
  0 <= m ->
  Nat.iter (S k) shr_1 {| shr_m := m; shr_r := false; shr_s := false |}
  = {| shr_m := m / 2 ^ Z.of_nat (S k);
       shr_r := Z.odd (m / 2 ^ Z.of_nat k);
       shr_s := negb (m mod 2 ^ Z.of_nat k =? 0) |}.
Proof.
  intros Hm. induction k as [|k IH].
  - change (Nat.iter 1 shr_1 ?x) with (shr_1 x).
    rewrite shr_1_nonneg by assumption.
    change (Z.of_nat 1) with 1. change (Z.of_nat 0) with 0.
    now rewrite Z.pow_0_r, Z.pow_1_r, Z.div_1_r, Z.mod_1_r.
  - change (Nat.iter (S (S k)) shr_1 ?x) with (shr_1 (Nat.iter (S k) shr_1 x)).
    rewrite IH, shr_1_nonneg by (apply Z.div_pos; lia).
    assert (0 < 2 ^ Z.of_nat k) as Hpow by (apply Z.pow_pos_nonneg; lia).
    f_equal.
    + rewrite (Nat2Z.inj_succ (S k)), Z.pow_succ_r, Z.div_div by lia.
      f_equal. lia.
    + rewrite (Nat2Z.inj_succ k), <- Z.add_1_r, mod_pow2_succ by lia.
      pose proof (Z.mod_pos_bound m (2 ^ Z.of_nat k) Hpow).
      destruct (Z.odd (m / 2 ^ Z.of_nat k)); simpl Z.b2z.
      * symmetry. simpl. apply negb_true_iff, Z.eqb_neq. lia.
      * simpl. f_equal. f_equal. lia.
Qed.

(** Shifting and rounding an exact mantissa is rounding to nearest even. *)
Lemma round_shift_exact (m : Z) (k : nat) :
  0 <= m -> Float32.round_shift m loc_Exact k = Float32.rne m (Z.of_nat k).
Proof.
  intros Hm. unfold Float32.round_shift, Float32.rne. cbn [shr_record_of_loc].
  destruct k as [|k].
  - simpl. rewrite Z.div_1_r, Z.mod_1_r. reflexivity.
  - rewrite iter_shr_exact by assumption. cbn [shr_m loc_of_shr_record].
    set (j := Z.of_nat k).
    assert (0 < 2 ^ j) as Hpow by (apply Z.pow_pos_nonneg; lia).
    replace (Z.of_nat (S k)) with (j + 1) by lia.
    rewrite mod_pow2_succ by lia.
    rewrite (Z.pow_add_r 2 j 1), Z.pow_1_r by lia.
    pose proof (Z.mod_pos_bound m (2 ^ j) Hpow) as Hrem.
    destruct (Z.odd (m / 2 ^ j)); simpl Z.b2z;
      destruct (Z.eqb_spec (m mod 2 ^ j) 0) as [Hz | Hz]; simpl negb; cbn iota.
    + rewrite Hz. replace (2 * (2 ^ j * 1 + 0)) with (2 ^ j * 2) by lia.
      rewrite Z.compare_refl. reflexivity.
    + replace (2 * (2 ^ j * 1 + m mod 2 ^ j) ?= 2 ^ j * 2) with Gt;
        [reflexivity | symmetry; apply Z.compare_gt_iff; lia].
    + replace (2 * (2 ^ j * 0 + m mod 2 ^ j) ?= 2 ^ j * 2) with Lt;
        [reflexivity | symmetry; apply Z.compare_lt_iff; lia].
    + replace (2 * (2 ^ j * 0 + m mod 2 ^ j) ?= 2 ^ j * 2) with Lt;
        [reflexivity | symmetry; apply Z.compare_lt_iff; lia].
Qed.

Lemma rne_bounds (m k : Z) : m / 2 ^ k <= Float32.rne m k <= m / 2 ^ k + 1.
Proof.
  unfold Float32.rne. destruct (_ ?= _); [destruct (Z.even _)| |]; lia.
Qed.

Lemma rne_mono (m m' k : Z) :
  0 <= k -> m <= m' -> Float32.rne m k <= Float32.rne m' k.
Proof.
  intros Hk Hm.
  assert (0 < 2 ^ k) as Hpow by (apply Z.pow_pos_nonneg; lia).
  pose proof (Z.div_le_mono m m' (2 ^ k) Hpow Hm) as Hq.
  destruct (Z.eq_dec (m / 2 ^ k) (m' / 2 ^ k)) as [Heq | Hne].
  - assert (m mod 2 ^ k <= m' mod 2 ^ k) as Hrem.
    { rewrite !Z.mod_eq, Heq by lia. lia. }
    unfold Float32.rne. rewrite Heq.
    destruct (Z.compare_spec (2 * (m mod 2 ^ k)) (2 ^ k));
      destruct (Z.compare_spec (2 * (m' mod 2 ^ k)) (2 ^ k));
      destruct (Z.even (m' / 2 ^ k)); lia.
  - pose proof (rne_bounds m k). pose proof (rne_bounds m' k). lia.
Qed.


Lemma shr_nat (mrs : shr_record) (e k : Z) :
  0 <= k -> shr mrs e k = (Nat.iter (Z.to_nat k) shr_1 mrs, e + k).
Proof.
  intros Hk. destruct k as [|p|p]; simpl; try lia.
  - now rewrite Z.add_0_r.
  - now rewrite iter_pos_nat.
Qed.

Lemma fexp_normal (d e : Z) :
  -149 <= d + e - 24 -> fexp 24 128 (d + e) = d + e - 24.
Proof. unfold fexp, emin. lia. Qed.

(** The second pass of [binary_round_aux]: a 24-bit mantissa is kept, a
    mantissa that rounding carried to [2^24] is renormalised. *)
Lemma renormalise (sx : bool) (m1 e1 : Z) :
  2 ^ 23 <= m1 <= 2 ^ 24 -> -149 <= e1 -> e1 + 1 <= 104 ->
  (let '(mrs, e2) := shr_fexp 24 128 m1 e1 loc_Exact in
   match shr_m mrs with
   | Z0 => S754_zero sx
   | Zpos m => if e2 <=? 128 - 24 then S754_finite sx m e2 else S754_infinity sx
   | Zneg _ => S754_nan
   end)
  = if m1 =? 2 ^ 24 then S754_finite sx 8388608 (e1 + 1)
    else S754_finite sx (Z.to_pos m1) e1.
Proof.
  intros Hm He Hmax. unfold shr_fexp.
  destruct (Z.eqb_spec m1 (2 ^ 24)) as [-> | Hne].
  - change (Zdigits2 (2 ^ 24)) with 25.
    rewrite fexp_normal by lia.
    replace (25 + e1 - 24 - e1) with 1 by lia.
    rewrite shr_nat by lia. simpl.
    destruct (Z.leb_spec (e1 + 1) 104); [reflexivity | lia].
  - rewrite (Zdigits2_unique m1 24) by (simpl Z.sub; lia).
    rewrite fexp_normal by lia.
    replace (24 + e1 - 24 - e1) with 0 by lia.
    rewrite shr_nat by lia. simpl Nat.iter. cbn [shr_record_of_loc shr_m].
    rewrite Z.add_0_r.
    destruct m1 as [|p|p]; try (exfalso; lia).
    destruct (Z.leb_spec e1 (128 - 24)); [reflexivity | lia].
Qed.

(** [binary_round_aux] on a positive mantissa of [24 + k] bits, in the
    normal range: shift by [k], round, renormalise. *)
Lemma binary_round_aux_normal (sx : bool) (m e k : Z) (l : location) :
  0 <= k -> 2 ^ (23 + k) <= m < 2 ^ (24 + k) ->
  -149 <= e + k -> e + k + 1 <= 104 ->
  binary_round_aux 24 128 sx m e l
  = let m1 := Float32.round_shift m l (Z.to_nat k) in
    if m1 =? 2 ^ 24 then S754_finite sx 8388608 (e + k + 1)
    else S754_finite sx (Z.to_pos m1) (e + k).
Proof.
  intros Hk Hm He Hmax.
  assert (0 < 2 ^ k) as Hpow by (apply Z.pow_pos_nonneg; lia).
  assert (2 ^ 23 <= Float32.round_shift m l (Z.to_nat k) <= 2 ^ 24) as Hm1.
  { assert (0 <= m) as Hpos by (pose proof (Z.pow_pos_nonneg 2 (23 + k)); lia).
    pose proof (round_shift_bounds m l (Z.to_nat k) Hpos) as Hb.
    rewrite Z2Nat.id in Hb by assumption.
    rewrite !Z.pow_add_r in Hm by lia.
    assert (2 ^ 23 <= m / 2 ^ k) by (apply Z.div_le_lower_bound; lia).
    assert (m / 2 ^ k < 2 ^ 24) by (apply Z.div_lt_upper_bound; lia).
    lia. }
  unfold binary_round_aux. unfold shr_fexp at 1.
  rewrite (Zdigits2_unique m (24 + k)) by (replace (24 + k - 1) with (23 + k); lia).
  rewrite fexp_normal by lia.
  replace (24 + k + e - 24 - e) with k by lia.
  rewrite shr_nat by assumption.
  fold (Float32.round_shift m l (Z.to_nat k)).
  apply renormalise; lia.
Qed.

Lemma Pos_iter_xO (p n : positive) :
  Zpos (Pos.iter xO p n) = Zpos p * 2 ^ Zpos n.
Proof.
  induction n as [|n IH] using Pos.peano_ind.
  - simpl. lia.
  - rewrite Pos.iter_succ, Pos2Z.inj_xO, IH, Pos2Z.inj_succ, Z.pow_succ_r by lia.
    lia.
Qed.

Lemma log2_digits (u : Z) :
  1 <= u < 2 ^ 32 ->
  let d := Z.log2 u + 1 in
  1 <= d <= 32 /\ 2 ^ (d - 1) <= u < 2 ^ d.
Proof.
  intros Hu d. subst d.
  pose proof (Z.log2_nonneg u).
  assert (Z.log2 u < 32) by (apply Z.log2_lt_pow2; lia).
  pose proof (Z.log2_spec u ltac:(lia)) as Hspec.
  replace (Z.log2 u + 1 - 1) with (Z.log2 u) by lia.
  replace (Z.log2 u + 1) with (Z.succ (Z.log2 u)) by lia.
  lia.
Qed.

(** The conversion of an [unsigned] to binary32, in closed form. *)
Lemma of_uint_norm (u : Z) :
  1 <= u < 2 ^ 32 ->
  Float32.of_uint u = S754_finite false (Z.to_pos (fst (Float32.norm u))) (snd (Float32.norm u)).
Proof.
  intros Hu. destruct (log2_digits u Hu) as [Hd Hpow].
  unfold Float32.norm. set (d := Z.log2 u + 1) in *.
  destruct u as [|p|p]; try lia.
  unfold Float32.of_uint, Float32.prec, Float32.emax, binary_normalize, binary_round.
  change (Zpos (digits2_pos p)) with (Zdigits2 (Zpos p)).
  rewrite Zdigits2_log2. fold d.
  rewrite fexp_normal by lia. unfold shl_align.
  destruct (Z.leb_spec d 24) as [Hle | Hgt].
  - destruct (d + 0 - 24 - 0) as [|x|x] eqn:Hx; try lia.
    + assert (d = 24) as Hd24 by lia. rewrite Hd24 in *.
      rewrite (binary_round_aux_normal false (Zpos p) 0 0) by (simpl; lia).
      cbv zeta. rewrite round_shift_exact by lia.
      simpl Z.to_nat. change (Z.of_nat 0) with 0.
      unfold Float32.rne. rewrite Z.pow_0_r, Z.div_1_r, Z.mod_1_r. simpl Z.compare.
      cbn iota. simpl fst. simpl snd.
      destruct (Z.eqb_spec (Zpos p) (2 ^ 24)); [lia|].
      rewrite Pos.mul_1_r. reflexivity.
    + assert (0 < 2 ^ (24 - d)) as Hsh by (apply Z.pow_pos_nonneg; lia).
      assert (24 - d = Zpos x) as Hxd by lia.
      rewrite (binary_round_aux_normal false _ (d + 0 - 24) 0);
        rewrite ?Pos_iter_xO, <- ?Hxd; try lia.
      * cbv zeta. rewrite round_shift_exact by lia.
        simpl Z.to_nat. change (Z.of_nat 0) with 0.
        unfold Float32.rne. rewrite Z.pow_0_r, Z.div_1_r, Z.mod_1_r. simpl Z.compare.
        cbn iota. simpl fst. simpl snd.
        assert (Zpos p * 2 ^ (24 - d) < 2 ^ 24) as Hlt.
        { replace (2 ^ 24) with (2 ^ d * 2 ^ (24 - d))
            by (rewrite <- Z.pow_add_r by lia; f_equal; lia).
          apply Z.mul_lt_mono_pos_r; lia. }
        destruct (Z.eqb_spec (Zpos p * 2 ^ (24 - d)) (2 ^ 24)); [lia|].
        f_equal. lia.
      * replace (2 ^ (23 + 0)) with (2 ^ (d - 1) * 2 ^ (24 - d))
          by (rewrite <- Z.pow_add_r by lia; f_equal; lia).
        replace (2 ^ (24 + 0)) with (2 ^ d * 2 ^ (24 - d))
          by (rewrite <- Z.pow_add_r by lia; f_equal; lia).
        split; [apply Z.mul_le_mono_nonneg_r | apply Z.mul_lt_mono_pos_r]; lia.
  - destruct (d + 0 - 24 - 0) as [|x|x] eqn:Hx; try lia.
    rewrite (binary_round_aux_normal false (Zpos p) 0 (d - 24)); try lia.
    + cbv zeta. rewrite round_shift_exact, Z2Nat.id by lia.
      destruct (Float32.rne (Zpos p) (d - 24) =? 2 ^ 24); simpl fst; simpl snd.
      * f_equal. lia.
      * reflexivity.
    + replace (23 + (d - 24)) with (d - 1) by lia.
      replace (24 + (d - 24)) with d by lia. lia.
Qed.

Lemma scaled_mantissa (u k : Z) :
  0 <= k -> 2 ^ (23 + k) <= u < 2 ^ (24 + k) ->
  2 ^ 23 <= u / 2 ^ k < 2 ^ 24.
Proof.
  intros Hk Hu.
  assert (0 < 2 ^ k) as Hpow by (apply Z.pow_pos_nonneg; lia).
  rewrite !Z.pow_add_r in Hu by lia.
  split; [apply Z.div_le_lower_bound | apply Z.div_lt_upper_bound]; lia.
Qed.

(** The conversion yields a normal number: a mantissa of exactly 24 bits. *)
Lemma norm_range (u : Z) :
  1 <= u < 2 ^ 32 ->
  2 ^ 23 <= fst (Float32.norm u) < 2 ^ 24 /\
  -23 <= snd (Float32.norm u) <= 9 /\
  (snd (Float32.norm u) = Z.log2 u + 1 - 24 \/
   snd (Float32.norm u) = Z.log2 u + 1 - 23 /\ fst (Float32.norm u) = 2 ^ 23).
Proof.
  intros Hu. destruct (log2_digits u Hu) as [Hd Hpow].
  unfold Float32.norm. set (d := Z.log2 u + 1) in *.
  destruct (Z.leb_spec d 24) as [Hle | Hgt]; cbn [fst snd].
  - assert (0 < 2 ^ (24 - d)) as Hsh by (apply Z.pow_pos_nonneg; lia).
    replace (2 ^ 23) with (2 ^ (d - 1) * 2 ^ (24 - d))
      by (rewrite <- Z.pow_add_r by lia; f_equal; lia).
    replace (2 ^ 24) with (2 ^ d * 2 ^ (24 - d))
      by (rewrite <- Z.pow_add_r by lia; f_equal; lia).
    repeat split; try lia.
    + apply Z.mul_le_mono_nonneg_r; lia.
    + apply Z.mul_lt_mono_pos_r; lia.
  - pose proof (rne_bounds u (d - 24)) as Hb.
    pose proof (scaled_mantissa u (d - 24) ltac:(lia)) as Hs.
    replace (23 + (d - 24)) with (d - 1) in Hs by lia.
    replace (24 + (d - 24)) with d in Hs by lia.
    specialize (Hs Hpow).
    destruct (Z.eqb_spec (Float32.rne u (d - 24)) (2 ^ 24)); cbn [fst snd]; lia.
Qed.

(** The conversion is monotone: exponents first, then mantissas. *)
Lemma norm_mono (g n : Z) :
  1 <= g -> g <= n -> n < 2 ^ 32 ->
  snd (Float32.norm g) < snd (Float32.norm n) \/
  snd (Float32.norm g) = snd (Float32.norm n) /\ fst (Float32.norm g) <= fst (Float32.norm n).
Proof.
  intros Hg Hgn Hn.
  pose proof (norm_range g ltac:(lia)) as (Hmg & _ & Heg).
  pose proof (norm_range n ltac:(lia)) as (Hmn & _ & Hen).
  pose proof (Z.log2_le_mono g n Hgn) as Hlog.
  destruct (Z.eq_dec (Z.log2 g) (Z.log2 n)) as [Heq | Hne]; [|lia].
  clear Heg Hen. unfold Float32.norm in *. rewrite Heq in *.
  set (d := Z.log2 n + 1) in *.
  destruct (Z.leb_spec d 24) as [Hle | Hgt]; cbn [fst snd] in *.
  - right. split; [reflexivity|].
    apply Z.mul_le_mono_nonneg_r; [apply Z.pow_nonneg|]; lia.
  - pose proof (rne_mono g n (d - 24) ltac:(lia) Hgn) as Hmono.
    destruct (Z.eqb_spec (Float32.rne g (d - 24)) (2 ^ 24));
      destruct (Z.eqb_spec (Float32.rne n (d - 24)) (2 ^ 24));
      cbn [fst snd] in *; lia.
Qed.

Lemma new_location_zero (nb : Z) : new_location nb 0 = loc_Exact.
Proof. unfold new_location. now destruct (Z.even nb). Qed.

(** The quotient of two normal binary32 numbers, the first at most the
    second, is at most one. *)
Lemma div_le_one (ma mb : positive) (ea eb : Z) :
  2 ^ 23 <= Zpos ma < 2 ^ 24 -> 2 ^ 23 <= Zpos mb < 2 ^ 24 ->
  -23 <= ea <= 9 -> -23 <= eb <= 9 ->
  ea < eb \/ ea = eb /\ Zpos ma <= Zpos mb ->
  exists m e,
    SFdiv 24 128 (S754_finite false ma ea) (S754_finite false mb eb)
    = S754_finite false m e /\
    (e < -23 \/ e = -23 /\ m = 8388608%positive).
Proof.
  intros Hma Hmb Hea Heb Hle.
  unfold SFdiv, SFdiv_core_binary.
  rewrite !(Zdigits2_unique _ 24) by (simpl Z.sub; lia).
  assert (Z.min (fexp 24 128 (24 + ea - (24 + eb))) (ea - eb) = ea - eb - 24)
    as -> by (unfold fexp, emin; lia).
  replace (ea - eb - (ea - eb - 24)) with 24 by lia.
  cbv iota. rewrite Z.shiftl_mul_pow2 by lia.
  pose proof (Z_div_mod (Zpos ma * 2 ^ 24) (Zpos mb) ltac:(lia)) as Hdiv.
  destruct (Z.div_eucl (Zpos ma * 2 ^ 24) (Zpos mb)) as [q r].
  destruct Hdiv as [Hqr Hr]. simpl xorb.
  assert (2 ^ 23 <= q < 2 ^ 25) as Hq by nia.
  destruct (Z.ltb_spec q (2 ^ 24)) as [Hsmall | Hbig].
  - rewrite (binary_round_aux_normal false q _ 0) by (simpl; lia).
    cbv zeta.
    pose proof (round_shift_bounds q (new_location (Zpos mb) r) 0 ltac:(lia)) as Hb.
    change (2 ^ Z.of_nat 0) with 1 in Hb. rewrite Z.div_1_r in Hb.
    simpl Z.to_nat.
    destruct (Z.eqb_spec (Float32.round_shift q (new_location (Zpos mb) r) 0) (2 ^ 24)).
    + eexists _, _. split; [reflexivity|]. lia.
    + eexists _, _. split; [reflexivity|]. lia.
  - destruct Hle as [Hlt | [Heq Hm]].
    + rewrite (binary_round_aux_normal false q _ 1) by (simpl; lia).
      cbv zeta.
      pose proof (round_shift_bounds q (new_location (Zpos mb) r) 1 ltac:(lia)) as Hb.
      change (2 ^ Z.of_nat 1) with 2 in Hb.
      assert (q / 2 < 2 ^ 24) by (apply Z.div_lt_upper_bound; lia).
      change (Z.to_nat 1) with 1%nat.
      destruct (Z.eqb_spec (Float32.round_shift q (new_location (Zpos mb) r) 1) (2 ^ 24)).
      * eexists _, _. split; [reflexivity|]. lia.
      * eexists _, _. split; [reflexivity|]. lia.
    + assert (q = 2 ^ 24 /\ r = 0) as [-> ->] by nia.
      rewrite new_location_zero.
      rewrite (binary_round_aux_normal false _ _ 1) by (simpl; lia).
      eexists _, _. split; [reflexivity|].
      right. split; [lia | reflexivity].
Qed.

(** The quotient [test] returns lies between zero and one as soon as the
    count is at most the number of samples. *)
Lemma fraction_bounds (count n : Z) :
  0 <= count <= n -> 1 <= n < 2 ^ 32 ->
  Float32.leb Float32.zero (fraction count n) = true /\
  Float32.leb (fraction count n) Float32.one = true.
Proof.
  intros Hc Hn. unfold fraction, Float32.leb, Float32.zero, Float32.one, Float32.div.
  unfold Float32.prec, Float32.emax.
  rewrite (of_uint_norm n Hn).
  destruct (Z.eq_dec count 0) as [-> | Hpos].
  - split; reflexivity.
  - rewrite (of_uint_norm count) by lia.
    pose proof (norm_range count ltac:(lia)) as (Hmc & Hec & _).
    pose proof (norm_range n Hn) as (Hmn & Hen & _).
    pose proof (norm_mono count n ltac:(lia) ltac:(lia) ltac:(lia)) as Hmono.
    destruct (div_le_one (Z.to_pos (fst (Float32.norm count))) (Z.to_pos (fst (Float32.norm n)))
                (snd (Float32.norm count)) (snd (Float32.norm n))) as (m & e & -> & He);
      rewrite ?Z2Pos.id by lia; try lia.
    split; [reflexivity|].
    change (SFone 24 128) with (S754_finite false 8388608 (-23)).
    unfold SFleb, SFcompare.
    destruct He as [Hlt | [-> ->]].
    + apply Z.compare_lt_iff in Hlt. now rewrite Hlt.
    + reflexivity.
Qed.

(** * Properties of the estimator *)

Lemma tally_well_formed (system : IState) (vs : list Z) :
  well_formed system = true ->
  forall good, tally system vs good = Done (good + hits system vs).
Proof.
  intros Hwf. unfold hits.
  induction vs as [|v vs IH]; intros good; simpl.
  - f_equal. lia.
  - rewrite (well_formed_member system v Hwf). simpl.
    rewrite IH. destruct (member system v); simpl; f_equal; lia.
Qed.

Lemma hits_bounds (system : IState) (vs : list Z) :
  0 <= hits system vs <= Z.of_nat (length vs).
Proof.
  unfold hits. pose proof (filter_length_le (member system) vs) as Hle.
  split; [apply Nat2Z.is_nonneg | now apply Nat2Z.inj_le].
Qed.

Lemma tally_bounds (system : IState) (vs : list Z) :
  forall good good',
    tally system vs good = Done good' ->
    good <= good' <= good + Z.of_nat (length vs).
Proof.
  induction vs as [|v vs IH]; intros good good'; simpl tally.
  - intros [= <-]. simpl. lia.
  - destruct (contains system v) as [b | |]; cbn [rbind]; try discriminate.
    intros Htally. apply IH in Htally.
    change (length (v :: vs)) with (S (length vs)).
    rewrite Nat2Z.inj_succ. destruct b; lia.
Qed.

Lemma tally_ext (p q : IState) (vs : list Z) :
  (forall v, In v vs -> contains q v = contains p v) ->
  forall good, tally q vs good = tally p vs good.
Proof.
  induction vs as [|v vs IH]; intros Hagree good; simpl; [reflexivity|].
  rewrite (Hagree v (or_introl eq_refl)).
  destruct (contains p v) as [b | |]; simpl; try reflexivity.
  apply IH. intros w Hw. apply Hagree. now right.
Qed.

Section DrawsFacts.
Context {R : UniformRandom}.

Lemma draws_length (a b : Z) (k : nat) :
  forall g, length (fst (draws a b g k)) = k.
Proof.
  induction k as [|k IH]; intros g; simpl; [reflexivity|].
  destruct (uniform_int a b g) as [v g'].
  specialize (IH g'). destruct (draws a b g' k) as [vs g''].
  simpl in *. now rewrite IH.
Qed.

Lemma draws_in_range `{!UniformRandomInRange R} (a b : Z) (k : nat) :
  a <= b ->
  forall g, Forall (fun v => a <= v <= b) (fst (draws a b g k)).
Proof.
  intros Hab. induction k as [|k IH]; intros g; simpl; [constructor|].
  pose proof (uniform_int_in_range a b g Hab) as Hv.
  destruct (uniform_int a b g) as [v g'].
  specialize (IH g'). destruct (draws a b g' k) as [vs g''].
  simpl in *. now constructor.
Qed.
End DrawsFacts.

Section TestFacts.
Context {R : UniformRandom}.
Variable self : ProbabilityTest.
Variable system : IState.
Variable test_count : Z.
Hypothesis test_count_unsigned : 0 <= test_count < uint_max.

Lemma uint_succ_small (u : Z) : 0 <= u < test_count -> uint_succ u = u + 1.
Proof. intros Hu. unfold uint_succ. apply Z.mod_small. lia. Qed.

(** The loop, entered with [cnt <= test_count], runs [test_count - cnt]
    iterations: that many draws, each one tested. *)
Lemma for_loop_spec (fuel : nat) :
  forall (l : locals) (log : list Z),
    0 <= cnt l <= test_count ->
    0 <= good l <= cnt l ->
    (Z.to_nat (test_count - cnt l) <= fuel)%nat ->
    for_loop self system test_count fuel l log =
    let (vs, g) :=
      draws (E_min self) (E_max self) (reng l) (Z.to_nat (test_count - cnt l)) in
    good' <- tally system vs (good l) ;;
    Done ({| cnt := test_count; good := good'; reng := g |}, log ++ vs).
Proof.
  induction fuel as [|fuel IH]; intros [c gd rg] log; simpl; intros Hc Hg Hfuel.
  - assert (c = test_count) as -> by lia.
    rewrite Z.eqb_refl, Z.sub_diag. simpl. unfold ret.
    now rewrite app_nil_r.
  - destruct (Z.eqb_spec c test_count) as [-> | Hne].
    + rewrite Z.sub_diag. simpl. unfold ret. now rewrite app_nil_r.
    + replace (Z.to_nat (test_count - c))
        with (S (Z.to_nat (test_count - (c + 1)))) in * by lia.
      simpl. unfold bind at 1. unfold dstr.
      destruct (uniform_int (E_min self) (E_max self) rg) as [v rg'].
      unfold bind at 1. unfold lift.
      destruct (draws _ _ rg' _) as [vs g] eqn:Hdraws. simpl.
      destruct (contains system v) as [b | |]; simpl; try reflexivity.
      rewrite (uint_succ_small c) by lia.
      assert ((if b then uint_succ gd else gd) = (if b then gd + 1 else gd))
        as -> by (destruct b; [apply uint_succ_small; lia | reflexivity]).
      rewrite IH; simpl; [| lia | destruct b; lia | lia].
      rewrite Hdraws.
      destruct (tally system vs _); simpl; try reflexivity.
      now rewrite <- app_assoc.
Qed.

(** [test] with enough fuel: one draw that is dropped, then
    [test_count] draws that are tallied. *)
Lemma test_fuel_spec (fuel : nat) (seed : Z) (log : list Z) :
  (Z.to_nat test_count <= fuel)%nat ->
  exists d1 ds,
    fst (draws (E_min self) (E_max self) (seed_engine seed)
           (S (Z.to_nat test_count))) = d1 :: ds /\
    length ds = Z.to_nat test_count /\
    test_fuel self system test_count fuel seed log =
    (good <- tally system ds 0 ;;
     Done (fraction good test_count, log ++ d1 :: ds)).
Proof.
  intros Hfuel. unfold test_fuel. simpl.
  unfold bind at 1. unfold dstr.
  destruct (uniform_int (E_min self) (E_max self) (seed_engine seed))
    as [d1 g1] eqn:Hd1.
  pose proof (draws_length (E_min self) (E_max self) (Z.to_nat test_count) g1)
    as Hlen.
  exists d1, (fst (draws (E_min self) (E_max self) g1 (Z.to_nat test_count))).
  unfold bind. rewrite for_loop_spec; simpl; [| lia | lia | now rewrite Z.sub_0_r].
  rewrite Z.sub_0_r.
  destruct (draws _ _ g1 _) as [vs g]. simpl in *.
  repeat split; [assumption|].
  destruct (tally system vs 0); simpl; try reflexivity.
  unfold ret, fraction. now rewrite <- app_assoc.
Qed.
End TestFacts.

(** The states of the engine are the integers from 1 to the modulus less 1. *)
Lemma Minstd_seed_valid (s : Z) : 1 <= Minstd.seed s < Minstd.modulus.
Proof.
  unfold Minstd.seed.
  pose proof (Z.mod_pos_bound s Minstd.modulus eq_refl).
  destruct (Z.eqb_spec (s mod Minstd.modulus) 0); unfold Minstd.modulus in *; lia.
Qed.

Lemma Minstd_seed_of_state (x : Z) :
  1 <= x < Minstd.modulus -> Minstd.seed x = x.
Proof.
  intros Hx. unfold Minstd.seed. rewrite Z.mod_small by lia.
  destruct (Z.eqb_spec x 0); [lia | reflexivity].
Qed.

(** On a state of the engine [next] is the plain congruential step, and
    it yields a state again: the multiplier is prime to the modulus. *)
Lemma Minstd_next_valid (x : Z) : 1 <= Minstd.next x < Minstd.modulus.
Proof.
  unfold Minstd.next.
  pose proof (Minstd_seed_valid x) as Hs.
  pose proof (Z.mod_pos_bound (Minstd.multiplier * Minstd.seed x) Minstd.modulus eq_refl)
    as Hm.
  assert ((Minstd.multiplier * Minstd.seed x) mod Minstd.modulus <> 0) as Hnz.
  { intros Hz. apply Z.mod_divide in Hz; [|discriminate].
    apply Z.gauss in Hz; [|reflexivity].
    apply Z.divide_pos_le in Hz; lia. }
  lia.
Qed.

Lemma Minstd_next_of_state (x : Z) :
  1 <= x < Minstd.modulus ->
  Minstd.next x = (Minstd.multiplier * x) mod Minstd.modulus.
Proof. intros Hx. unfold Minstd.next. now rewrite Minstd_seed_of_state. Qed.

Lemma Minstd_sample_step (fuel : nat) (urange x : Z) :
  Minstd.sample (S fuel) urange x =
  if urange <? Minstd.urngrange then
    if (urange + 1) * (Minstd.urngrange / (urange + 1)) <=? Minstd.next x - 1
    then Minstd.sample fuel urange (Minstd.next x)
    else ((Minstd.next x - 1) / (Minstd.urngrange / (urange + 1)), Minstd.next x)
  else if Minstd.urngrange <? urange then
    let (high, x1) := Minstd.sample fuel (urange / (Minstd.urngrange + 1)) x in
    if urange <? (Minstd.urngrange + 1) * high + (Minstd.next x1 - 1)
    then Minstd.sample fuel urange (Minstd.next x1)
    else ((Minstd.urngrange + 1) * high + (Minstd.next x1 - 1), Minstd.next x1)
  else (Minstd.next x - 1, Minstd.next x).
Proof. reflexivity. Qed.

Lemma Minstd_sample_range (fuel : nat) :
  forall urange x, 0 <= urange -> 0 <= fst (Minstd.sample fuel urange x) <= urange.
Proof.
  induction fuel as [|fuel IH]; intros urange x Hu; [simpl; lia|].
  rewrite Minstd_sample_step.
  pose proof (Minstd_next_valid x) as Hx.
  assert (Minstd.urngrange = Minstd.modulus - 2) as Hr by reflexivity.
  assert (Minstd.modulus = 2147483647) as Hm by reflexivity.
  destruct (Z.ltb_spec urange Minstd.urngrange) as [Hdown | Hnot].
  - destruct (Z.leb_spec ((urange + 1) * (Minstd.urngrange / (urange + 1)))
                (Minstd.next x - 1)) as [Hrej | Hacc].
    + now apply IH.
    + cbn [fst].
      assert (1 <= Minstd.urngrange / (urange + 1))
        by (apply Z.div_le_lower_bound; lia).
      split; [apply Z.div_pos; lia|].
      assert ((Minstd.next x - 1) / (Minstd.urngrange / (urange + 1)) < urange + 1)
        by (apply Z.div_lt_upper_bound; lia).
      lia.
  - destruct (Z.ltb_spec Minstd.urngrange urange) as [Hup | Heq].
    + pose proof (IH (urange / (Minstd.urngrange + 1)) x
                    ltac:(apply Z.div_pos; lia)) as Hhigh.
      destruct (Minstd.sample fuel (urange / (Minstd.urngrange + 1)) x) as [high x1].
      cbn [fst] in Hhigh. pose proof (Minstd_next_valid x1) as Hx1.
      destruct (Z.ltb_spec urange
                  ((Minstd.urngrange + 1) * high + (Minstd.next x1 - 1))).
      * now apply IH.
      * cbn [fst]. nia.
    + cbn [fst]. lia.
Qed.

Lemma Minstd_draw_range (a b x : Z) :
  a <= b -> a <= fst (Minstd.draw a b x) <= b.
Proof.
  intros Hab. unfold Minstd.draw.
  pose proof (Minstd_sample_range Minstd.retries (b - a) x ltac:(lia)) as Hs.
  destruct (Minstd.sample Minstd.retries (b - a) x) as [ret x'].
  cbn [fst] in *. lia.
Qed.

(** The distribution keeps its values in the range asked for. *)
#[export] Instance Minstd_in_range : UniformRandomInRange Minstd.random.
Proof. intros a b g Hab. now apply Minstd_draw_range. Qed.

(** C1, as the code has it: for a state without null pointers, a range
    [E_min <= E_max], a sample count [1 <= n < 2^32] and any seed, [test]
    seeds the engine, makes [n + 1] draws from the range (each within it),
    drops the first, evaluates [contains] on each of the other [n], and
    returns the binary32 quotient of the number of hits by [n]: the
    fraction of the draws 2 to [n + 1] that the state contains. *)
Theorem test_fraction_of_draws_after_first
    {R : UniformRandom} `{!UniformRandomInRange R}
    (self : ProbabilityTest) (system : IState) (n seed : Z) (log : list Z) :
  E_min self <= E_max self ->
  1 <= n < uint_max ->
  well_formed system = true ->
  exists d1 ds,
    fst (draws (E_min self) (E_max self) (seed_engine seed) (S (Z.to_nat n)))
    = d1 :: ds /\
    Z.of_nat (length ds) = n /\
    Forall (fun v => E_min self <= v <= E_max self) (d1 :: ds) /\
    test self system n seed log
    = Done (fraction (hits system ds) n, log ++ d1 :: ds).
Proof.
  intros Hrange Hn Hwf.
  destruct (test_fuel_spec self system n ltac:(lia) (Z.to_nat n) seed log
              (Nat.le_refl _)) as (d1 & ds & Hdraws & Hlen & Htest).
  exists d1, ds. repeat split.
  - assumption.
  - lia.
  - rewrite <- Hdraws. now apply draws_in_range.
  - unfold test. rewrite Htest, (tally_well_formed system ds Hwf). reflexivity.
Qed.

Lemma test_fraction_of_draws_after_first_witness :
  exists d1 ds,
    fst (draws (R := Minstd.random) (-1000) 1000 (seed_engine 1) 4) = d1 :: ds /\
    Z.of_nat (length ds) = 3 /\
    Forall (fun v => -1000 <= v <= 1000) (d1 :: ds) /\
    test (R := Minstd.random) {| E_min := -1000; E_max := 1000 |}
      (SegmentState 0 500) 3 1 []
    = Done (fraction (hits (SegmentState 0 500) ds) 3, [] ++ d1 :: ds).
Proof.
  apply (test_fraction_of_draws_after_first
           (R := Minstd.random)
           {| E_min := -1000; E_max := 1000 |} (SegmentState 0 500) 3 1 []).
  - simpl. lia.
  - unfold uint_max. lia.
  - reflexivity.
Defined.

(** C1 fails as stated: with the engine and the distribution of GCC's
    library seeded by 1 over [-1000, 1000], the first value drawn is -1000
    and the second -737; for the state that contains -1000 only and one
    sample, all of the first [n = 1] values are in the state, yet [test]
    returns zero. *)
Lemma test_not_fraction_of_first_draws :
  let self := {| E_min := -1000; E_max := 1000 |} in
  let system := DiscreteState (-1000) in
  fst (draws (R := Minstd.random) (E_min self) (E_max self) (seed_engine 1) 2)
  = [-1000; -737] /\
  fraction (hits system [-1000]) 1 = Float32.one /\
  test (R := Minstd.random) self system 1 1 [] = Done (Float32.zero, [-1000; -737]) /\
  Float32.zero <> Float32.one.
Proof. repeat split. discriminate. Qed.

(** C2. With a sample count of zero the loop body never runs and [test]
    returns the quotient of zero by zero, which in binary32 is the NaN:
    one constant, whatever the state (even one with null pointers), the
    range and the seed; the only draw made is the dropped one. *)
Theorem test_zero_samples_is_nan
    {R : UniformRandom} (self : ProbabilityTest) (system : IState)
    (seed : Z) (log : list Z) :
  exists d1,
    test self system 0 seed log = Done (Float32.nan, log ++ [d1]).
Proof.
  unfold test, test_fuel. simpl. unfold bind, dstr.
  destruct (uniform_int (E_min self) (E_max self) (seed_engine seed)) as [d1 g1].
  exists d1. reflexivity.
Qed.

(** C4. Two invocations of [test] with the same arguments, the second one
    starting where the first one ended, both complete, return the same
    binary32 value and make the same sequence of draws. *)
Theorem test_is_deterministic
    {R : UniformRandom} (self : ProbabilityTest) (system : IState)
    (n seed : Z) (log : list Z) :
  0 <= n < uint_max ->
  well_formed system = true ->
  exists r ds,
    test self system n seed log = Done (r, log ++ ds) /\
    test self system n seed (log ++ ds) = Done (r, (log ++ ds) ++ ds).
Proof.
  intros Hn Hwf. unfold test.
  destruct (test_fuel_spec self system n Hn (Z.to_nat n) seed log
              (Nat.le_refl _)) as (d1 & ds & Hdraws & _ & Hfst).
  destruct (test_fuel_spec self system n Hn (Z.to_nat n) seed (log ++ d1 :: ds)
              (Nat.le_refl _)) as (d1' & ds' & Hdraws' & _ & Hsnd).
  rewrite Hdraws in Hdraws'. injection Hdraws' as <- <-.
  rewrite (tally_well_formed system ds Hwf) in Hfst, Hsnd.
  exists (fraction (0 + hits system ds) n), (d1 :: ds).
  split; assumption.
Qed.

Lemma test_is_deterministic_witness :
  exists r ds,
    test (R := Minstd.random) {| E_min := -10; E_max := 10 |}
      (UnifyState (DiscreteState (-5)) (DiscreteState 5)) 4 7 []
    = Done (r, [] ++ ds) /\
    test (R := Minstd.random) {| E_min := -10; E_max := 10 |}
      (UnifyState (DiscreteState (-5)) (DiscreteState 5)) 4 7 ([] ++ ds)
    = Done (r, ([] ++ ds) ++ ds).
Proof.
  apply (test_is_deterministic (R := Minstd.random)
           {| E_min := -10; E_max := 10 |}
           (UnifyState (DiscreteState (-5)) (DiscreteState 5)) 4 7 []).
  - unfold uint_max. lia.
  - reflexivity.
Defined.

(** C5, as the code has it: for a state without null pointers and a
    sample count [0 <= n < 2^32], a run of [test] completes, with any
    allowance of at least [n] loop iterations, and makes exactly [n + 1]
    draws: the dropped one and one per iteration. *)
Theorem test_terminates_after_count_plus_one_draws
    {R : UniformRandom} (self : ProbabilityTest) (system : IState)
    (n seed : Z) (log : list Z) :
  0 <= n < uint_max ->
  well_formed system = true ->
  exists r ds,
    Z.of_nat (length ds) = n + 1 /\
    test self system n seed log = Done (r, log ++ ds) /\
    forall fuel, (Z.to_nat n <= fuel)%nat ->
      test_fuel self system n fuel seed log = Done (r, log ++ ds).
Proof.
  intros Hn Hwf.
  destruct (test_fuel_spec self system n Hn (Z.to_nat n) seed log
              (Nat.le_refl _)) as (d1 & ds & Hdraws & Hlen & Htest).
  rewrite (tally_well_formed system ds Hwf) in Htest.
  exists (fraction (0 + hits system ds) n), (d1 :: ds).
  split; [simpl length; lia|]. split; [exact Htest|].
  intros fuel Hfuel.
  destruct (test_fuel_spec self system n Hn fuel seed log Hfuel)
    as (d1' & ds' & Hdraws' & _ & Htest').
  rewrite Hdraws in Hdraws'. injection Hdraws' as <- <-.
  now rewrite (tally_well_formed system ds Hwf) in Htest'.
Qed.

Lemma test_terminates_after_count_plus_one_draws_witness :
  exists r ds,
    Z.of_nat (length ds) = 3 + 1 /\
    test (R := Minstd.random) {| E_min := -1000; E_max := 1000 |}
      (SegmentState 0 500) 3 1 [] = Done (r, [] ++ ds) /\
    forall fuel, (Z.to_nat 3 <= fuel)%nat ->
      test_fuel (R := Minstd.random) {| E_min := -1000; E_max := 1000 |}
        (SegmentState 0 500) 3 fuel 1 [] = Done (r, [] ++ ds).
Proof.
  apply (test_terminates_after_count_plus_one_draws (R := Minstd.random)
           {| E_min := -1000; E_max := 1000 |} (SegmentState 0 500) 3 1 []).
  - unfold uint_max. lia.
  - reflexivity.
Defined.

(** C5 fails as stated: a run with three samples makes four draws. *)
Lemma test_draws_more_than_count :
  exists r,
    test (R := Minstd.random) {| E_min := -1000; E_max := 1000 |}
      (SegmentState 0 500) 3 1 [] = Done (r, [-1000; -737; 511; -83]) /\
    length [-1000; -737; 511; -83] <> 3%nat.
Proof. eexists. split; [reflexivity | discriminate]. Qed.

(** C10. For a sample count [0 <= n < 2^32], [test] makes [n + 1] draws
    [d1 :: ds] from the seeded engine and its outcome is the tally of
    [contains] over [ds], the draws 2 to [n + 1], divided by [n]; the
    state is not evaluated on [d1]: any state that evaluates as [system]
    does on the values of [ds] gives the same outcome, whatever it does
    on [d1]. *)
Theorem test_discards_first_draw
    {R : UniformRandom} (self : ProbabilityTest) (system : IState)
    (n seed : Z) (log : list Z) :
  0 <= n < uint_max ->
  exists d1 ds,
    fst (draws (E_min self) (E_max self) (seed_engine seed) (S (Z.to_nat n)))
    = d1 :: ds /\
    Z.of_nat (length ds) = n /\
    test self system n seed log
    = (good <- tally system ds 0 ;;
       Done (fraction good n, log ++ d1 :: ds)) /\
    forall other : IState,
      (forall v, In v ds -> contains other v = contains system v) ->
      test self other n seed log = test self system n seed log.
Proof.
  intros Hn.
  destruct (test_fuel_spec self system n Hn (Z.to_nat n) seed log
              (Nat.le_refl _)) as (d1 & ds & Hdraws & Hlen & Htest).
  exists d1, ds. repeat split; [assumption | lia | exact Htest |].
  intros other Hagree. unfold test.
  destruct (test_fuel_spec self other n Hn (Z.to_nat n) seed log
              (Nat.le_refl _)) as (d1' & ds' & Hdraws' & _ & Htest').
  rewrite Hdraws in Hdraws'. injection Hdraws' as <- <-.
  now rewrite Htest, Htest', (tally_ext system other ds Hagree).
Qed.

Lemma test_discards_first_draw_witness :
  exists d1 ds,
    fst (draws (R := Minstd.random) (-1000) 1000 (seed_engine 1) 3) = d1 :: ds /\
    Z.of_nat (length ds) = 2 /\
    test (R := Minstd.random) {| E_min := -1000; E_max := 1000 |}
      (DiscreteState (-1000)) 2 1 []
    = (good <- tally (DiscreteState (-1000)) ds 0 ;;
       Done (fraction good 2, [] ++ d1 :: ds)) /\
    forall other : IState,
      (forall v, In v ds -> contains other v = contains (DiscreteState (-1000)) v) ->
      test (R := Minstd.random) {| E_min := -1000; E_max := 1000 |} other 2 1 []
      = test (R := Minstd.random) {| E_min := -1000; E_max := 1000 |}
          (DiscreteState (-1000)) 2 1 [].
Proof.
  apply (test_discards_first_draw (R := Minstd.random)
           {| E_min := -1000; E_max := 1000 |} (DiscreteState (-1000)) 2 1 []).
  unfold uint_max. lia.
Defined.

(** C6. For a sample count [1 <= n < 2^32] and any state, range and seed,
    every value [test] returns is a binary32 number between zero and one,
    both included; and [test] does return a value when no pointer of the
    state is null. *)
Theorem test_in_unit_interval
    {R : UniformRandom} (self : ProbabilityTest) (system : IState)
    (n seed : Z) (log : list Z) :
  1 <= n < uint_max ->
  (well_formed system = true ->
   exists r log', test self system n seed log = Done (r, log')) /\
  (forall r log',
     test self system n seed log = Done (r, log') ->
     Float32.leb Float32.zero r = true /\ Float32.leb r Float32.one = true).
Proof.
  intros Hn.
  destruct (test_fuel_spec self system n ltac:(lia) (Z.to_nat n) seed log
              (Nat.le_refl _)) as (d1 & ds & _ & Hlen & Htest).
  fold (test self system n seed) in Htest. rewrite Htest. split.
  - intros Hwf. rewrite (tally_well_formed system ds Hwf). simpl. eauto.
  - intros r log' Hdone.
    destruct (tally system ds 0) as [count | |] eqn:Htally; try discriminate.
    injection Hdone as <- _.
    apply fraction_bounds; [|exact Hn].
    pose proof (tally_bounds system ds 0 count Htally). lia.
Qed.

Lemma test_in_unit_interval_witness :
  exists r log',
    test (R := Minstd.random) {| E_min := -1000; E_max := 1000 |}
      (SegmentState 0 500) 5 1 [] = Done (r, log') /\
    Float32.leb Float32.zero r = true /\
    Float32.leb r Float32.one = true.
Proof.
  destruct (test_in_unit_interval (R := Minstd.random)
              {| E_min := -1000; E_max := 1000 |} (SegmentState 0 500) 5 1 [])
    as [Hdone Hbounds].
  - unfold uint_max. lia.
  - destruct (Hdone eq_refl) as (r & log' & Hrun).
    exists r, log'. split; [exact Hrun | exact (Hbounds r log' Hrun)].
Defined.

(** * Further properties of the states *)

(** X1. A state without null pointers evaluates on every value, and the
    short-circuit evaluation of [contains] agrees with the reading of the
    state as a set: complement, intersection and union of points and
    closed segments. *)
Theorem contains_denote (st : IState) (s : State) :
  well_formed st = true -> contains st s = Done (denote st s).
Proof.
  induction st using IState_induction; simpl; intros Hwf.
  - reflexivity.
  - now rewrite Z.geb_leb.
  - discriminate.
  - now rewrite (IHst Hwf).
  - destruct f as [f'|]; [|discriminate].
    destruct g as [g'|]; [|discriminate].
    apply andb_true_iff in Hwf as [Hf Hg].
    rewrite (H f' eq_refl Hf). simpl.
    destruct (denote f' s); [exact (H0 g' eq_refl Hg) | reflexivity].
  - apply andb_true_iff in Hwf as [Hf Hg].
    rewrite (IHst1 Hf). simpl.
    destruct (denote st1 s); [reflexivity | exact (IHst2 Hg)].
Qed.

Lemma contains_denote_witness :
  contains (IntersectState.create
              (Some (InverseState.create (Some (DiscreteState 3))))
              (Some (UnifyState (SegmentState 0 5) (DiscreteState 9)))) 3
  = Done (denote (IntersectState.create
              (Some (InverseState.create (Some (DiscreteState 3))))
              (Some (UnifyState (SegmentState 0 5) (DiscreteState 9)))) 3).
Proof. apply contains_denote. reflexivity. Defined.

(** X2. Unions nest either way: [contains] evaluates the three operands
    in the same order, so the two groupings agree on every value, also
    where an operand has none. *)
Theorem unify_assoc (a b c : IState) (s : State) :
  contains (UnifyState (UnifyState a b) c) s
  = contains (UnifyState a (UnifyState b c)) s.
Proof.
  simpl. destruct (contains a s) as [[|] | |]; simpl; try reflexivity;
    destruct (contains b s) as [[|] | |]; reflexivity.
Qed.

(** X3. Intersections nest either way, on every value and for all
    operands. *)
Theorem intersect_assoc (a b c : IState) (s : State) :
  contains (IntersectState.create
              (Some (IntersectState.create (Some a) (Some b))) (Some c)) s
  = contains (IntersectState.create
                (Some a) (Some (IntersectState.create (Some b) (Some c)))) s.
Proof.
  simpl. destruct (contains a s) as [[|] | |]; simpl; try reflexivity;
    destruct (contains b s) as [[|] | |]; reflexivity.
Qed.

(** X4. The other De Morgan law: the inverse of a union evaluates as the
    intersection of the inverses, for all operands. *)
Theorem de_morgan_inverse_unify (a b : IState) (s : State) :
  contains (InverseState.create (Some (UnifyState a b))) s
  = contains (IntersectState.create
                (Some (InverseState.create (Some a)))
                (Some (InverseState.create (Some b)))) s.
Proof.
  simpl. destruct (contains a s) as [[|] | |]; reflexivity.
Qed.

(** X5. Intersection distributes over union and union over intersection,
    for all operands: the repeated operand is evaluated twice, to the same
    effect. *)
Theorem intersect_unify_distribute (a b c : IState) (s : State) :
  contains (IntersectState.create (Some a) (Some (UnifyState b c))) s
  = contains (UnifyState (IntersectState.create (Some a) (Some b))
                         (IntersectState.create (Some a) (Some c))) s /\
  contains (UnifyState a (IntersectState.create (Some b) (Some c))) s
  = contains (IntersectState.create (Some (UnifyState a b))
                                    (Some (UnifyState a c))) s.
Proof.
  split; simpl; destruct (contains a s) as [[|] | |]; simpl; try reflexivity;
    destruct (contains b s) as [[|] | |]; reflexivity.
Qed.

(** X6. Where both operands have a value, union and intersection do not
    depend on the order of the operands. *)
Theorem unify_intersect_comm (a b : IState) (s : State) (x y : bool) :
  contains a s = Done x -> contains b s = Done y ->
  contains (UnifyState a b) s = contains (UnifyState b a) s /\
  contains (IntersectState.create (Some a) (Some b)) s
  = contains (IntersectState.create (Some b) (Some a)) s.
Proof.
  intros Ha Hb. simpl. rewrite Ha, Hb. simpl.
  destruct x, y; split; reflexivity.
Qed.

Lemma unify_intersect_comm_witness :
  contains (UnifyState (DiscreteState 1) (SegmentState 0 4)) 1
  = contains (UnifyState (SegmentState 0 4) (DiscreteState 1)) 1 /\
  contains (IntersectState.create (Some (DiscreteState 1)) (Some (SegmentState 0 4))) 1
  = contains (IntersectState.create (Some (SegmentState 0 4)) (Some (DiscreteState 1))) 1.
Proof.
  apply (unify_intersect_comm (DiscreteState 1) (SegmentState 0 4) 1 true true);
    reflexivity.
Defined.

(** X7. The order of the operands matters once one of them has no value:
    a union whose first operand contains the value is true without the
    second being evaluated, and an intersection whose first operand does
    not contain it is false likewise, while with the operands exchanged
    the null pointer of the other operand is dereferenced. *)
Theorem operand_order_matters (a b : IState) (s : State) :
  contains b s = NullDeref ->
  (contains a s = Done true ->
   contains (UnifyState a b) s = Done true /\
   contains (UnifyState b a) s = NullDeref) /\
  (contains a s = Done false ->
   contains (IntersectState.create (Some a) (Some b)) s = Done false /\
   contains (IntersectState.create (Some b) (Some a)) s = NullDeref).
Proof.
  intros Hb. split; intros Ha; simpl; rewrite Ha, Hb; split; reflexivity.
Qed.

Lemma operand_order_matters_witness :
  (contains (UnifyState (DiscreteState 1) InverseState.create0) 1 = Done true /\
   contains (UnifyState InverseState.create0 (DiscreteState 1)) 1 = NullDeref) /\
  (contains (IntersectState.create (Some (DiscreteState 2))
               (Some InverseState.create0)) 1 = Done false /\
   contains (IntersectState.create (Some InverseState.create0)
               (Some (DiscreteState 2))) 1 = NullDeref).
Proof.
  split.
  - apply (proj1 (operand_order_matters (DiscreteState 1) InverseState.create0 1
                    eq_refl)). reflexivity.
  - apply (proj2 (operand_order_matters (DiscreteState 2) InverseState.create0 1
                    eq_refl)). reflexivity.
Defined.

(** X8. A segment whose ends coincide is the discrete state of that
    point. *)
Theorem segment_of_one_point (a s : State) :
  contains (SegmentState a a) s = contains (DiscreteState a) s.
Proof.
  simpl. f_equal. rewrite Z.geb_leb.
  destruct (Z.eqb_spec s a) as [-> | Hne].
  - now rewrite Z.leb_refl.
  - apply andb_false_iff.
    destruct (Z.leb_spec a s); [right; apply Z.leb_gt; lia | now left].
Qed.

(** X9. The intersection of two segments is the segment from the larger
    of the lower ends to the smaller of the upper ends (empty when these
    cross). *)
Theorem intersect_of_segments (a b c d s : State) :
  contains (IntersectState.create (Some (SegmentState a b))
                                  (Some (SegmentState c d))) s
  = contains (SegmentState (Z.max a c) (Z.min b d)) s.
Proof.
  simpl. rewrite !Z.geb_leb.
  destruct (Z.leb_spec a s), (Z.leb_spec s b), (Z.leb_spec c s),
    (Z.leb_spec s d), (Z.leb_spec (Z.max a c) s), (Z.leb_spec s (Z.min b d));
    simpl; try reflexivity; lia.
Qed.

(** X10. The union of two non-empty segments that overlap or touch (no
    integer lies strictly between them) is the segment spanning both. *)
Theorem unify_of_adjacent_segments (a b c d s : State) :
  a <= b -> c <= d -> c <= b + 1 -> a <= d + 1 ->
  contains (UnifyState (SegmentState a b) (SegmentState c d)) s
  = contains (SegmentState (Z.min a c) (Z.max b d)) s.
Proof.
  intros Hab Hcd Hcb Had. simpl. rewrite !Z.geb_leb.
  destruct (Z.leb_spec a s), (Z.leb_spec s b), (Z.leb_spec c s),
    (Z.leb_spec s d), (Z.leb_spec (Z.min a c) s), (Z.leb_spec s (Z.max b d));
    simpl; try reflexivity; lia.
Qed.

Lemma unify_of_adjacent_segments_witness :
  contains (UnifyState (SegmentState 0 5) (SegmentState 6 9)) 6
  = contains (SegmentState (Z.min 0 6) (Z.max 5 9)) 6.
Proof. apply unify_of_adjacent_segments; lia. Defined.

(** X11. A state and its inverse: where the state has a value, their
    union contains the value and their intersection does not. *)
Theorem inverse_is_complement (a : IState) (s : State) :
  contains (UnifyState a (InverseState.create (Some a))) s
  = rmap (fun _ => true) (contains a s) /\
  contains (IntersectState.create (Some a) (Some (InverseState.create (Some a)))) s
  = rmap (fun _ => false) (contains a s).
Proof.
  split; simpl; destruct (contains a s) as [[|] | |]; reflexivity.
Qed.

(** * Further properties of the binary32 quotient *)

(** A normal number divided by itself is one. *)
Lemma div_self (m : positive) (e : Z) :
  2 ^ 23 <= Zpos m < 2 ^ 24 -> -23 <= e <= 9 ->
  SFdiv 24 128 (S754_finite false m e) (S754_finite false m e)
  = S754_finite false 8388608 (-23).
Proof.
  intros Hm He.
  unfold SFdiv, SFdiv_core_binary.
  rewrite !(Zdigits2_unique _ 24) by (simpl Z.sub; lia).
  assert (Z.min (fexp 24 128 (24 + e - (24 + e))) (e - e) = e - e - 24)
    as -> by (unfold fexp, emin; lia).
  replace (e - e - (e - e - 24)) with 24 by lia.
  cbv iota. rewrite Z.shiftl_mul_pow2 by lia.
  pose proof (Z_div_mod (Zpos m * 2 ^ 24) (Zpos m) ltac:(lia)) as Hdiv.
  destruct (Z.div_eucl (Zpos m * 2 ^ 24) (Zpos m)) as [q r].
  destruct Hdiv as [Hqr Hr]. simpl xorb.
  assert (q = 2 ^ 24) as -> by nia.
  assert (r = 0) as -> by lia.
  rewrite new_location_zero.
  rewrite (binary_round_aux_normal false _ _ 1) by (simpl; lia).
  cbv zeta. change (Float32.round_shift (2 ^ 24) loc_Exact (Z.to_nat 1)) with (2 ^ 23).
  simpl Z.eqb. cbv iota. f_equal. lia.
Qed.

(** The quotient of two normal numbers, the first strictly below the
    second, is strictly below one. *)
Lemma div_lt_one (ma mb : positive) (ea eb : Z) :
  2 ^ 23 <= Zpos ma < 2 ^ 24 -> 2 ^ 23 <= Zpos mb < 2 ^ 24 ->
  -23 <= ea <= 9 -> -23 <= eb <= 9 ->
  ea < eb \/ ea = eb /\ Zpos ma < Zpos mb ->
  exists m e,
    SFdiv 24 128 (S754_finite false ma ea) (S754_finite false mb eb)
    = S754_finite false m e /\ e < -23.
Proof.
  intros Hma Hmb Hea Heb Hlt.
  unfold SFdiv, SFdiv_core_binary.
  rewrite !(Zdigits2_unique _ 24) by (simpl Z.sub; lia).
  assert (Z.min (fexp 24 128 (24 + ea - (24 + eb))) (ea - eb) = ea - eb - 24)
    as -> by (unfold fexp, emin; lia).
  replace (ea - eb - (ea - eb - 24)) with 24 by lia.
  cbv iota. rewrite Z.shiftl_mul_pow2 by lia.
  pose proof (Z_div_mod (Zpos ma * 2 ^ 24) (Zpos mb) ltac:(lia)) as Hdiv.
  destruct (Z.div_eucl (Zpos ma * 2 ^ 24) (Zpos mb)) as [q r].
  destruct Hdiv as [Hqr Hr]. simpl xorb.
  assert (2 ^ 23 <= q < 2 ^ 25) as Hq by nia.
  destruct (Z.ltb_spec q (2 ^ 24)) as [Hsmall | Hbig].
  - rewrite (binary_round_aux_normal false q _ 0) by (simpl; lia).
    cbv zeta.
    pose proof (round_shift_bounds q (new_location (Zpos mb) r) 0 ltac:(lia)) as Hb.
    change (2 ^ Z.of_nat 0) with 1 in Hb. rewrite Z.div_1_r in Hb.
    simpl Z.to_nat.
    destruct (Z.eqb_spec (Float32.round_shift q (new_location (Zpos mb) r) 0) (2 ^ 24))
      as [Hcarry | Hno].
    + eexists _, _. split; [reflexivity|].
      destruct Hlt as [Hlt | [Heq Hm]]; [lia|].
      assert (q < 2 ^ 24 - 1) by nia. lia.
    + eexists _, _. split; [reflexivity|]. lia.
  - destruct Hlt as [Hlt | [Heq Hm]]; [|nia].
    rewrite (binary_round_aux_normal false q _ 1) by (simpl; lia).
    cbv zeta.
    pose proof (round_shift_bounds q (new_location (Zpos mb) r) 1 ltac:(lia)) as Hb.
    change (2 ^ Z.of_nat 1) with 2 in Hb.
    assert (q / 2 < 2 ^ 24) by (apply Z.div_lt_upper_bound; lia).
    change (Z.to_nat 1) with 1%nat.
    destruct (Z.eqb_spec (Float32.round_shift q (new_location (Zpos mb) r) 1) (2 ^ 24))
      as [Hcarry | Hno].
    + eexists _, _. split; [reflexivity|].
      destruct (Z.eq_dec ea (eb - 1)) as [Hadj | Hfar]; [|lia].
      exfalso.
      assert (2 ^ 25 - 2 <= q) as Hq2.
      { assert (2 ^ 24 - 1 <= q / 2) as Hhalf by lia.
        pose proof (Z.mul_div_le q 2 ltac:(lia)). lia. }
      assert (Zpos mb = 2 ^ 23) as Hmb23 by nia.
      rewrite Hmb23 in *.
      assert (q = 2 ^ 25 - 2 /\ r = 0) as [-> ->] by lia.
      rewrite new_location_zero in Hcarry. vm_compute in Hcarry. discriminate.
    + eexists _, _. split; [reflexivity|]. lia.
Qed.

(** The conversion is strictly monotone up to [2^24], where it is exact. *)
Lemma norm_strict (g n : Z) :
  1 <= g -> g < n -> n <= 2 ^ 24 ->
  snd (Float32.norm g) < snd (Float32.norm n) \/
  snd (Float32.norm g) = snd (Float32.norm n) /\
  fst (Float32.norm g) < fst (Float32.norm n).
Proof.
  intros Hg Hgn Hn.
  destruct (log2_digits g ltac:(lia)) as [Hdg Hpg].
  assert (Z.log2 g + 1 <= 24) as Hg24.
  { assert (Z.log2 g < 24) by (apply Z.log2_lt_pow2; lia). lia. }
  destruct (Z.eq_dec n (2 ^ 24)) as [-> | Hne].
  - left. unfold Float32.norm at 1.
    destruct (Z.leb_spec (Z.log2 g + 1) 24); [|lia].
    cbn [snd]. change (snd (Float32.norm (2 ^ 24))) with 1. lia.
  - destruct (log2_digits n ltac:(lia)) as [Hdn Hpn].
    assert (Z.log2 n + 1 <= 24) as Hn24.
    { assert (Z.log2 n < 24) by (apply Z.log2_lt_pow2; lia). lia. }
    pose proof (Z.log2_le_mono g n ltac:(lia)) as Hlog.
    unfold Float32.norm.
    destruct (Z.leb_spec (Z.log2 g + 1) 24); [|lia].
    destruct (Z.leb_spec (Z.log2 n + 1) 24); [|lia].
    cbn [fst snd].
    destruct (Z.eq_dec (Z.log2 g) (Z.log2 n)) as [Heq | Hlt]; [|lia].
    right. split; [lia|]. rewrite Heq.
    apply Z.mul_lt_mono_pos_r; [apply Z.pow_pos_nonneg|]; lia.
Qed.

(** The quotient [test] returns is zero exactly when the count is. *)
Lemma fraction_zero_iff (count n : Z) :
  0 <= count <= n -> 1 <= n < 2 ^ 32 ->
  fraction count n = Float32.zero <-> count = 0.
Proof.
  intros Hc Hn. unfold fraction, Float32.zero, Float32.div.
  unfold Float32.prec, Float32.emax.
  rewrite (of_uint_norm n Hn). split.
  - intros Hzero. destruct (Z.eq_dec count 0) as [-> | Hpos]; [reflexivity|].
    exfalso. rewrite (of_uint_norm count) in Hzero by lia.
    pose proof (norm_range count ltac:(lia)) as (Hmc & Hec & _).
    pose proof (norm_range n Hn) as (Hmn & Hen & _).
    pose proof (norm_mono count n ltac:(lia) ltac:(lia) ltac:(lia)) as Hmono.
    destruct (div_le_one (Z.to_pos (fst (Float32.norm count)))
                (Z.to_pos (fst (Float32.norm n)))
                (snd (Float32.norm count)) (snd (Float32.norm n)))
      as (m & e & Hdiv & _); rewrite ?Z2Pos.id by lia; try lia.
    rewrite Hdiv in Hzero. discriminate.
  - intros ->. reflexivity.
Qed.

(** The quotient of a count by itself is one; up to [2^24] samples, where
    the conversion to binary32 is exact, no smaller count gives one. *)
Lemma fraction_one_iff (count n : Z) :
  0 <= count <= n -> 1 <= n < 2 ^ 32 ->
  (count = n -> fraction count n = Float32.one) /\
  (n <= 2 ^ 24 -> fraction count n = Float32.one -> count = n).
Proof.
  intros Hc Hn. unfold fraction, Float32.one, Float32.div.
  unfold Float32.prec, Float32.emax.
  change (SFone 24 128) with (S754_finite false 8388608 (-23)).
  pose proof (norm_range n Hn) as (Hmn & Hen & _).
  split.
  - intros ->. rewrite (of_uint_norm n Hn).
    apply div_self; rewrite ?Z2Pos.id by lia; lia.
  - intros Hsmall Hone.
    destruct (Z.eq_dec count n) as [Heq | Hne]; [exact Heq | exfalso].
    rewrite (of_uint_norm n Hn) in Hone.
    destruct (Z.eq_dec count 0) as [-> | Hpos]; [discriminate|].
    rewrite (of_uint_norm count) in Hone by lia.
    pose proof (norm_range count ltac:(lia)) as (Hmc & Hec & _).
    pose proof (norm_strict count n ltac:(lia) ltac:(lia) Hsmall) as Hstrict.
    destruct (div_lt_one (Z.to_pos (fst (Float32.norm count)))
                (Z.to_pos (fst (Float32.norm n)))
                (snd (Float32.norm count)) (snd (Float32.norm n)))
      as (m & e & Hdiv & He); rewrite ?Z2Pos.id by lia; try lia.
    rewrite Hdiv in Hone. injection Hone as _ He'. lia.
Qed.

(** ** Monotonicity of the quotient *)

(** Division of normal numbers, in closed form. *)
Lemma div_normal (ma mb : positive) (ea eb : Z) :
  2 ^ 23 <= Zpos ma < 2 ^ 24 -> 2 ^ 23 <= Zpos mb < 2 ^ 24 ->
  -23 <= ea <= 9 -> -23 <= eb <= 9 ->
  SFdiv 24 128 (S754_finite false ma ea) (S754_finite false mb eb)
  = S754_finite false
      (Z.to_pos (fst (normal_quotient (Zpos ma) (Zpos mb) (ea - eb - 24))))
      (snd (normal_quotient (Zpos ma) (Zpos mb) (ea - eb - 24))).
Proof.
  intros Hma Hmb Hea Heb.
  unfold SFdiv, SFdiv_core_binary, normal_quotient.
  rewrite !(Zdigits2_unique _ 24) by (simpl Z.sub; lia).
  assert (Z.min (fexp 24 128 (24 + ea - (24 + eb))) (ea - eb) = ea - eb - 24)
    as -> by (unfold fexp, emin; lia).
  replace (ea - eb - (ea - eb - 24)) with 24 by lia.
  cbv iota. rewrite Z.shiftl_mul_pow2 by lia.
  pose proof (Z_div_mod (Zpos ma * 2 ^ 24) (Zpos mb) ltac:(lia)) as Hdiv.
  destruct (Z.div_eucl (Zpos ma * 2 ^ 24) (Zpos mb)) as [q r].
  destruct Hdiv as [Hqr Hr]. simpl xorb.
  assert (2 ^ 23 <= q < 2 ^ 25) as Hq by nia.
  destruct (Z.ltb_spec q (2 ^ 24)) as [Hsmall | Hbig].
  - rewrite (binary_round_aux_normal false q _ 0) by (simpl; lia).
    cbv zeta.
    match goal with
    | |- context [?x =? 2 ^ 24] => destruct (Z.eqb_spec x (2 ^ 24))
    end; reflexivity.
  - rewrite (binary_round_aux_normal false q _ 1) by (simpl; lia).
    cbv zeta.
    match goal with
    | |- context [?x =? 2 ^ 24] => destruct (Z.eqb_spec x (2 ^ 24))
    end; reflexivity.
Qed.

Lemma round_shift_none (q : Z) (l : location) :
  Float32.round_shift q l 0 = round_nearest_even q l.
Proof. now destruct l as [|[ | | ]]. Qed.

Lemma round_shift_one (q : Z) (l : location) :
  0 <= q ->
  Float32.round_shift q l 1
  = round_nearest_even (q / 2)
      (loc_of_shr_record
         {| shr_m := q / 2; shr_r := Z.odd q;
            shr_s := match l with loc_Exact => false | _ => true end |}).
Proof.
  intros Hq. unfold Float32.round_shift.
  change (Nat.iter 1 shr_1 ?x) with (shr_1 x).
  destruct l as [|[ | | ]]; cbn [shr_record_of_loc];
    rewrite shr_1_nonneg by assumption; reflexivity.
Qed.

Lemma round_shift_one_le (q : Z) (l : location) :
  0 <= q -> Float32.round_shift q l 1 <= (q + 1) / 2.
Proof.
  intros Hq. rewrite round_shift_one by assumption.
  pose proof (Zmod_odd q) as Hodd.
  destruct (Z.odd q), l as [|[ | | ]]; cbn [loc_of_shr_record round_nearest_even];
    try destruct (Z.even (q / 2)); Z.div_mod_to_equations; lia.
Qed.

Lemma new_location_exact (nb r : Z) :
  new_location nb r = loc_Exact <-> r = 0.
Proof.
  unfold new_location, new_location_even, new_location_odd.
  destruct (Z.even nb), (Z.eqb_spec r 0); split; congruence.
Qed.

(** Rounding by the remainder is monotone in the remainder. *)
Lemma round_remainder_mono (nb q r r' : Z) :
  0 <= r <= r' ->
  round_nearest_even q (new_location nb r)
  <= round_nearest_even q (new_location nb r').
Proof.
  intros Hr. unfold new_location, new_location_even, new_location_odd.
  destruct (Z.even nb), (Z.eqb_spec r 0), (Z.eqb_spec r' 0); try lia;
    cbn [round_nearest_even];
    repeat match goal with
           | |- context [?x ?= ?y] => destruct (Z.compare_spec x y)
           end;
    cbn [round_nearest_even]; try destruct (Z.even q); lia.
Qed.

Lemma round_shift_one_mono (nb q r r' : Z) :
  0 <= q -> 0 <= r <= r' ->
  Float32.round_shift q (new_location nb r) 1
  <= Float32.round_shift q (new_location nb r') 1.
Proof.
  intros Hq Hr. rewrite !round_shift_one by assumption.
  pose proof (new_location_exact nb r) as He.
  pose proof (new_location_exact nb r') as He'.
  destruct (new_location nb r) as [|c] eqn:Hl;
    destruct (new_location nb r') as [|c'] eqn:Hl'.
  - lia.
  - destruct (Z.odd q); cbn [loc_of_shr_record round_nearest_even];
      try destruct (Z.even (q / 2)); lia.
  - assert (r' = 0) by (now apply He').
    assert (r <> 0) by (intros Hz; apply He in Hz; discriminate).
    lia.
  - lia.
Qed.

Lemma normal_quotient_range (ma mb e0 : Z) :
  2 ^ 23 <= ma < 2 ^ 24 -> 2 ^ 23 <= mb < 2 ^ 24 ->
  2 ^ 23 <= fst (normal_quotient ma mb e0) < 2 ^ 24.
Proof.
  intros Hma Hmb. unfold normal_quotient.
  pose proof (Z_div_mod (ma * 2 ^ 24) mb ltac:(lia)) as Hdiv.
  destruct (Z.div_eucl (ma * 2 ^ 24) mb) as [q r]. destruct Hdiv as [Hqr Hr].
  assert (2 ^ 23 <= q < 2 ^ 25) as Hq by nia.
  destruct (Z.ltb_spec q (2 ^ 24)).
  - pose proof (round_shift_bounds q (new_location mb r) 0 ltac:(lia)) as Hb.
    change (2 ^ Z.of_nat 0) with 1 in Hb. rewrite Z.div_1_r in Hb.
    change (Z.to_nat 0) with 0%nat.
    destruct (Z.eqb_spec (Float32.round_shift q (new_location mb r) 0) (2 ^ 24));
      cbn [fst]; lia.
  - pose proof (round_shift_bounds q (new_location mb r) 1 ltac:(lia)) as Hb.
    change (2 ^ Z.of_nat 1) with 2 in Hb.
    change (Z.to_nat 1) with 1%nat.
    destruct (Z.eqb_spec (Float32.round_shift q (new_location mb r) 1) (2 ^ 24));
      cbn [fst]; [lia|]. Z.div_mod_to_equations. lia.
Qed.

(** The rounded quotient grows with the dividend: with the exponent
    first, then with the mantissa. *)
Lemma normal_quotient_mono (ma ma' mb e0 e0' : Z) :
  2 ^ 23 <= ma < 2 ^ 24 -> 2 ^ 23 <= ma' < 2 ^ 24 -> 2 ^ 23 <= mb < 2 ^ 24 ->
  e0 < e0' \/ e0 = e0' /\ ma <= ma' ->
  snd (normal_quotient ma mb e0) < snd (normal_quotient ma' mb e0') \/
  snd (normal_quotient ma mb e0) = snd (normal_quotient ma' mb e0') /\
  fst (normal_quotient ma mb e0) <= fst (normal_quotient ma' mb e0').
Proof.
  intros Hma Hma' Hmb Hle. unfold normal_quotient.
  pose proof (Z_div_mod (ma * 2 ^ 24) mb ltac:(lia)) as Hdiv.
  pose proof (Z_div_mod (ma' * 2 ^ 24) mb ltac:(lia)) as Hdiv'.
  destruct (Z.div_eucl (ma * 2 ^ 24) mb) as [q r]. destruct Hdiv as [Hqr Hr].
  destruct (Z.div_eucl (ma' * 2 ^ 24) mb) as [q' r']. destruct Hdiv' as [Hqr' Hr'].
  assert (2 ^ 23 <= q < 2 ^ 25) as Hq by nia.
  assert (2 ^ 23 <= q' < 2 ^ 25) as Hq' by nia.
  assert (q <= 2 * q') as Hdouble by nia.
  set (l := new_location mb r). set (l' := new_location mb r').
  pose proof (round_shift_bounds q l 0 ltac:(lia)) as B0.
  pose proof (round_shift_bounds q' l' 0 ltac:(lia)) as B0'.
  pose proof (round_shift_bounds q l 1 ltac:(lia)) as B1.
  pose proof (round_shift_bounds q' l' 1 ltac:(lia)) as B1'.
  pose proof (round_shift_one_le q l ltac:(lia)) as C1.
  change (2 ^ Z.of_nat 0) with 1 in *. change (2 ^ Z.of_nat 1) with 2 in *.
  rewrite Z.div_1_r in B0, B0'.
  assert (e0 = e0' -> q = q' ->
          Float32.round_shift q l 0 <= Float32.round_shift q' l' 0 /\
          Float32.round_shift q l 1 <= Float32.round_shift q' l' 1) as Hsame.
  { intros He <-. assert (0 <= r <= r') by nia. subst l l'. split.
    - rewrite !round_shift_none. now apply round_remainder_mono.
    - apply round_shift_one_mono; lia. }
  assert (e0 = e0' -> q <= q') as Hqq by nia.
  destruct (Z.eq_dec q q') as [Heq | Hneq].
  - destruct (Z.ltb_spec q (2 ^ 24)), (Z.ltb_spec q' (2 ^ 24)); try lia;
      change (Z.to_nat 0) with 0%nat; change (Z.to_nat 1) with 1%nat;
      repeat match goal with
             | |- context [?x =? 2 ^ 24] => destruct (Z.eqb_spec x (2 ^ 24))
             end;
      cbn [fst snd]; Z.div_mod_to_equations; lia.
  - clear Hsame.
    destruct (Z.ltb_spec q (2 ^ 24)), (Z.ltb_spec q' (2 ^ 24));
      change (Z.to_nat 0) with 0%nat; change (Z.to_nat 1) with 1%nat;
      repeat match goal with
             | |- context [?x =? 2 ^ 24] => destruct (Z.eqb_spec x (2 ^ 24))
             end;
      cbn [fst snd]; Z.div_mod_to_equations; lia.
Qed.

Lemma SFleb_lex (m m' : positive) (e e' : Z) :
  e < e' \/ e = e' /\ Zpos m <= Zpos m' ->
  SFleb (S754_finite false m e) (S754_finite false m' e') = true.
Proof.
  intros Hle. unfold SFleb, SFcompare.
  destruct Hle as [Hlt | [-> Hm]].
  - apply Z.compare_lt_iff in Hlt. now rewrite Hlt.
  - rewrite Z.compare_refl. change (Pos.compare_cont Eq m m') with (m ?= m')%positive.
    destruct (Pos.compare_spec m m'); try reflexivity. lia.
Qed.

(** The quotient [test] returns does not decrease when the count grows. *)
Lemma fraction_mono (count count' n : Z) :
  0 <= count <= count' -> count' < 2 ^ 32 -> 1 <= n < 2 ^ 32 ->
  Float32.leb (fraction count n) (fraction count' n) = true.
Proof.
  intros Hc Hc' Hn. unfold fraction, Float32.leb, Float32.div.
  unfold Float32.prec, Float32.emax.
  rewrite (of_uint_norm n Hn).
  pose proof (norm_range n Hn) as (Hmn & Hen & _).
  destruct (Z.eq_dec count' 0) as [-> | Hpos'].
  - assert (count = 0) as -> by lia. reflexivity.
  - rewrite (of_uint_norm count') by lia.
    pose proof (norm_range count' ltac:(lia)) as (Hm' & He' & _).
    rewrite (div_normal _ _ _ _) by (rewrite ?Z2Pos.id by lia; lia).
    destruct (Z.eq_dec count 0) as [-> | Hpos]; [reflexivity|].
    rewrite (of_uint_norm count) by lia.
    pose proof (norm_range count ltac:(lia)) as (Hm & He & _).
    rewrite (div_normal _ _ _ _) by (rewrite ?Z2Pos.id by lia; lia).
    rewrite !Z2Pos.id by lia.
    pose proof (norm_mono count count' ltac:(lia) ltac:(lia) ltac:(lia)) as Hmono.
    pose proof (normal_quotient_range (fst (Float32.norm count))
                  (fst (Float32.norm n))
                  (snd (Float32.norm count) - snd (Float32.norm n) - 24) Hm Hmn).
    pose proof (normal_quotient_range (fst (Float32.norm count'))
                  (fst (Float32.norm n))
                  (snd (Float32.norm count') - snd (Float32.norm n) - 24) Hm' Hmn).
    apply SFleb_lex. rewrite !Z2Pos.id by lia.
    apply normal_quotient_mono; try assumption. lia.
Qed.

(** * Further properties of the estimator *)

Lemma contains_not_out_of_fuel (st : IState) (s : State) :
  contains st s <> OutOfFuel.
Proof.
  induction st using IState_induction; simpl; try discriminate.
  - destruct (contains st s); simpl; congruence.
  - destruct f as [f'|]; [|discriminate].
    specialize (H f' eq_refl).
    destruct (contains f' s) as [[|] | |]; simpl; try congruence.
    destruct g as [g'|]; [exact (H0 g' eq_refl) | discriminate].
  - destruct (contains st1 s) as [[|] | |]; simpl; congruence.
Qed.

Lemma tally_null (system : IState) (v : Z) (vs : list Z) :
  In v vs -> contains system v = NullDeref ->
  forall good, tally system vs good = NullDeref.
Proof.
  intros Hin Hnull. induction vs as [|w vs IH]; intros good; [destruct Hin|].
  simpl. destruct Hin as [-> | Hin].
  - now rewrite Hnull.
  - pose proof (contains_not_out_of_fuel system w).
    destruct (contains system w) as [b | |]; simpl; [now apply IH | | ]; congruence.
Qed.

Lemma tally_constant (system : IState) (b : bool) (vs : list Z) :
  Forall (fun v => contains system v = Done b) vs ->
  forall good,
    tally system vs good
    = Done (if b then good + Z.of_nat (length vs) else good).
Proof.
  induction 1 as [|v vs Hv _ IH]; intros good.
  - simpl. destruct b; apply f_equal; lia.
  - cbn [tally]. rewrite Hv. cbn [rbind]. rewrite IH.
    change (length (v :: vs)) with (S (length vs)).
    rewrite Nat2Z.inj_succ. unfold State in *.
    destruct b; apply f_equal; lia.
Qed.

Lemma hits_cons (system : IState) (v : Z) (vs : list Z) :
  hits system (v :: vs) = Z.b2z (member system v) + hits system vs.
Proof.
  unfold hits. cbn [filter]. destruct (member system v); cbn [Z.b2z]; [|lia].
  change (length (v :: ?l)) with (S (length l)). rewrite Nat2Z.inj_succ. lia.
Qed.

Lemma member_inverse (p : IState) (v : Z) :
  well_formed p = true ->
  member (InverseState.create (Some p)) v = negb (member p v).
Proof.
  intros Hwf. unfold member at 1. simpl.
  now rewrite (well_formed_member p v Hwf).
Qed.

Lemma member_unify (a b : IState) (v : Z) :
  well_formed a = true -> well_formed b = true ->
  member (UnifyState a b) v = member a v || member b v.
Proof.
  intros Ha Hb. unfold member at 1. simpl.
  rewrite (well_formed_member a v Ha). simpl.
  destruct (member a v); [reflexivity|].
  now rewrite (well_formed_member b v Hb).
Qed.

Lemma member_intersect (a b : IState) (v : Z) :
  well_formed a = true -> well_formed b = true ->
  member (IntersectState.create (Some a) (Some b)) v = member a v && member b v.
Proof.
  intros Ha Hb. unfold member at 1. simpl.
  rewrite (well_formed_member a v Ha). simpl.
  destruct (member a v); [|reflexivity].
  now rewrite (well_formed_member b v Hb).
Qed.

Lemma hits_inverse (p : IState) (vs : list Z) :
  well_formed p = true ->
  hits (InverseState.create (Some p)) vs = Z.of_nat (length vs) - hits p vs.
Proof.
  intros Hwf. induction vs as [|v vs IH].
  - reflexivity.
  - rewrite !hits_cons, IH, (member_inverse p v Hwf).
    change (length (v :: vs)) with (S (length vs)).
    rewrite Nat2Z.inj_succ. unfold State in *.
    destruct (member p v); cbn [Z.b2z negb]; lia.
Qed.

Lemma hits_unify_intersect (a b : IState) (vs : list Z) :
  well_formed a = true -> well_formed b = true ->
  hits (UnifyState a b) vs
  + hits (IntersectState.create (Some a) (Some b)) vs
  = hits a vs + hits b vs.
Proof.
  intros Ha Hb. induction vs as [|v vs IH].
  - reflexivity.
  - rewrite !hits_cons, (member_unify a b v Ha Hb), (member_intersect a b v Ha Hb).
    destruct (member a v), (member b v); cbn [Z.b2z orb andb]; lia.
Qed.

Lemma hits_mono (p q : IState) (vs : list Z) :
  (forall v, In v vs -> member p v = true -> member q v = true) ->
  hits p vs <= hits q vs.
Proof.
  induction vs as [|v vs IH]; intros Hsub; [reflexivity|].
  rewrite !hits_cons.
  assert (hits p vs <= hits q vs) by (apply IH; intros w Hw; apply Hsub; now right).
  pose proof (Hsub v (or_introl eq_refl)).
  destruct (member p v), (member q v); cbn [Z.b2z]; try lia.
Qed.

Section MoreTestFacts.
Context {R : UniformRandom}.
Variable self : ProbabilityTest.
Variables n seed : Z.
Variable log : list Z.
Hypothesis n_unsigned : 0 <= n < uint_max.

(** [test] in terms of the draws and the tally. *)
Lemma test_spec (system : IState) :
  exists d1 ds,
    fst (draws (E_min self) (E_max self) (seed_engine seed) (S (Z.to_nat n)))
    = d1 :: ds /\
    Z.of_nat (length ds) = n /\
    test self system n seed log
    = (good <- tally system ds 0 ;;
       Done (fraction good n, log ++ d1 :: ds)).
Proof.
  destruct (test_fuel_spec self system n n_unsigned (Z.to_nat n) seed log
              (Nat.le_refl _)) as (d1 & ds & Hdraws & Hlen & Htest).
  exists d1, ds. repeat split; [assumption | lia | exact Htest].
Qed.
End MoreTestFacts.

(** X12. One null dereference among the evaluations spoils the run: if
    the state dereferences a null pointer on any of the draws 2 to
    [n + 1], [test] has no result at all, whatever it counted before. *)
Theorem test_null_dereference
    {R : UniformRandom} (self : ProbabilityTest) (system : IState)
    (n seed : Z) (log : list Z) (v : Z) :
  0 <= n < uint_max ->
  In v (tl (fst (draws (E_min self) (E_max self) (seed_engine seed)
                   (S (Z.to_nat n))))) ->
  contains system v = NullDeref ->
  test self system n seed log = NullDeref.
Proof.
  intros Hn Hin Hnull.
  destruct (test_spec self n seed log Hn system)
    as (d1 & ds & Hdraws & _ & ->).
  rewrite Hdraws in Hin. simpl in Hin.
  now rewrite (tally_null system v ds Hin Hnull).
Qed.

Lemma test_null_dereference_witness :
  test (R := Minstd.random) {| E_min := -1000; E_max := 1000 |}
    (IntersectState.create (Some (SegmentState 0 600)) None) 3 1 []
  = NullDeref.
Proof.
  apply (test_null_dereference (R := Minstd.random)
           {| E_min := -1000; E_max := 1000 |}
           (IntersectState.create (Some (SegmentState 0 600)) None) 3 1 [] 511).
  - unfold uint_max. lia.
  - vm_compute. right. left. reflexivity.
  - reflexivity.
Defined.

(** X13. For a state without null pointers and [1 <= n < 2^32], [test]
    returns zero exactly when none of the draws 2 to [n + 1] is in the
    state, and returns one when all of them are; up to [2^24] samples it
    returns one only then.  (Beyond [2^24] the conversion of the counts to
    binary32 rounds, and a count below [n] can give one.) *)
Theorem test_zero_and_one
    {R : UniformRandom} (self : ProbabilityTest) (system : IState)
    (n seed : Z) (log : list Z) :
  1 <= n < uint_max ->
  well_formed system = true ->
  exists d1 ds r,
    fst (draws (E_min self) (E_max self) (seed_engine seed) (S (Z.to_nat n)))
    = d1 :: ds /\
    test self system n seed log = Done (r, log ++ d1 :: ds) /\
    (r = Float32.zero <-> hits system ds = 0) /\
    (hits system ds = n -> r = Float32.one) /\
    (n <= 2 ^ 24 -> r = Float32.one -> hits system ds = n).
Proof.
  intros Hn Hwf.
  destruct (test_spec self n seed log ltac:(lia) system)
    as (d1 & ds & Hdraws & Hlen & Htest).
  rewrite (tally_well_formed system ds Hwf) in Htest. simpl in Htest.
  pose proof (hits_bounds system ds) as Hb.
  exists d1, ds, (fraction (hits system ds) n).
  split; [exact Hdraws|]. split; [exact Htest|].
  split; [apply fraction_zero_iff; [lia | exact Hn]|].
  apply fraction_one_iff; [lia | exact Hn].
Qed.

Lemma test_zero_and_one_witness :
  exists d1 ds r,
    fst (draws (R := Minstd.random) (-1000) 1000 (seed_engine 1) 4) = d1 :: ds /\
    test (R := Minstd.random) {| E_min := -1000; E_max := 1000 |}
      (SegmentState 0 500) 3 1 [] = Done (r, [] ++ d1 :: ds) /\
    (r = Float32.zero <-> hits (SegmentState 0 500) ds = 0) /\
    (hits (SegmentState 0 500) ds = 3 -> r = Float32.one) /\
    (3 <= 2 ^ 24 -> r = Float32.one -> hits (SegmentState 0 500) ds = 3).
Proof.
  apply (test_zero_and_one (R := Minstd.random)
           {| E_min := -1000; E_max := 1000 |} (SegmentState 0 500) 3 1 []).
  - unfold uint_max. lia.
  - reflexivity.
Defined.

(** X14. A state that contains every value of the sampling range gets the
    estimate one, and a state that contains none of them gets zero, for
    every seed and every [1 <= n < 2^32]; only the values of the range
    matter, the state may even have null pointers elsewhere. *)
Theorem test_constant_on_range
    {R : UniformRandom} `{!UniformRandomInRange R}
    (self : ProbabilityTest) (system : IState) (b : bool)
    (n seed : Z) (log : list Z) :
  E_min self <= E_max self ->
  1 <= n < uint_max ->
  (forall v, E_min self <= v <= E_max self -> contains system v = Done b) ->
  exists ds,
    test self system n seed log
    = Done (if b then Float32.one else Float32.zero, log ++ ds).
Proof.
  intros Hrange Hn Hall.
  destruct (test_spec self n seed log ltac:(lia) system)
    as (d1 & ds & Hdraws & Hlen & ->).
  pose proof (draws_in_range (E_min self) (E_max self) (S (Z.to_nat n)) Hrange
                (seed_engine seed)) as Hin.
  rewrite Hdraws in Hin. apply Forall_inv_tail in Hin.
  rewrite (tally_constant system b ds).
  - exists (d1 :: ds). simpl. rewrite Hlen. destruct b.
    + f_equal. f_equal. apply fraction_one_iff; [lia | exact Hn | reflexivity].
    + f_equal. f_equal. apply fraction_zero_iff; [lia | exact Hn | reflexivity].
  - eapply Forall_impl; [|exact Hin]. exact Hall.
Qed.

Lemma test_constant_on_range_witness :
  exists ds,
    test (R := Minstd.random) {| E_min := -10; E_max := 10 |}
      (SegmentState (-10) 10) 4 7 []
    = Done (if true then Float32.one else Float32.zero, [] ++ ds).
Proof.
  apply (test_constant_on_range (R := Minstd.random)
           {| E_min := -10; E_max := 10 |} (SegmentState (-10) 10) true 4 7 []).
  - simpl. lia.
  - unfold uint_max. lia.
  - intros v Hv. simpl in *. f_equal. apply andb_true_iff.
    split; [apply Z.leb_le | apply Z.geb_le]; lia.
Defined.

(** X15. Two states that evaluate alike on the sampling range get the same
    outcome of [test], for every sample count and seed; what they do
    outside the range is never looked at. *)
Theorem test_depends_on_range_only
    {R : UniformRandom} `{!UniformRandomInRange R}
    (self : ProbabilityTest) (p q : IState) (n seed : Z) (log : list Z) :
  E_min self <= E_max self ->
  0 <= n < uint_max ->
  (forall v, E_min self <= v <= E_max self -> contains q v = contains p v) ->
  test self q n seed log = test self p n seed log.
Proof.
  intros Hrange Hn Hagree.
  destruct (test_spec self n seed log Hn p) as (d1 & ds & Hdraws & _ & ->).
  destruct (test_spec self n seed log Hn q) as (d1' & ds' & Hdraws' & _ & ->).
  rewrite Hdraws in Hdraws'. injection Hdraws' as <- <-.
  pose proof (draws_in_range (E_min self) (E_max self) (S (Z.to_nat n)) Hrange
                (seed_engine seed)) as Hin.
  rewrite Hdraws in Hin. apply Forall_inv_tail in Hin.
  rewrite (tally_ext p q ds); [reflexivity|].
  intros v Hv. apply Hagree. revert v Hv. now apply Forall_forall.
Qed.

Lemma test_depends_on_range_only_witness :
  test (R := Minstd.random) {| E_min := -10; E_max := 10 |}
    (SegmentState 0 1000) 4 7 []
  = test (R := Minstd.random) {| E_min := -10; E_max := 10 |}
      (SegmentState 0 10) 4 7 [].
Proof.
  apply (test_depends_on_range_only (R := Minstd.random)
           {| E_min := -10; E_max := 10 |} (SegmentState 0 10) (SegmentState 0 1000)
           4 7 []).
  - simpl. lia.
  - unfold uint_max. lia.
  - intros v Hv. simpl in *. f_equal. f_equal. rewrite !Z.geb_leb.
    destruct (Z.leb_spec v 1000), (Z.leb_spec v 10); lia || reflexivity.
Defined.

(** X16. Estimating the inverse of a state counts the complement: over
    the same draws, [test] on the inverse of [p] divides [n] minus the
    hits of [p] by [n]. *)
Theorem test_inverse_counts_complement
    {R : UniformRandom} (self : ProbabilityTest) (p : IState)
    (n seed : Z) (log : list Z) :
  0 <= n < uint_max ->
  well_formed p = true ->
  exists d1 ds,
    test self p n seed log
    = Done (fraction (hits p ds) n, log ++ d1 :: ds) /\
    test self (InverseState.create (Some p)) n seed log
    = Done (fraction (n - hits p ds) n, log ++ d1 :: ds).
Proof.
  intros Hn Hwf.
  destruct (test_spec self n seed log Hn p) as (d1 & ds & Hdraws & Hlen & Hp).
  destruct (test_spec self n seed log Hn (InverseState.create (Some p)))
    as (d1' & ds' & Hdraws' & _ & Hq).
  rewrite Hdraws in Hdraws'. injection Hdraws' as <- <-.
  exists d1, ds. rewrite Hp, Hq.
  rewrite (tally_well_formed p ds Hwf).
  rewrite (tally_well_formed (InverseState.create (Some p)) ds Hwf).
  rewrite (hits_inverse p ds Hwf), Hlen. split; reflexivity.
Qed.

Lemma test_inverse_counts_complement_witness :
  exists d1 ds,
    test (R := Minstd.random) {| E_min := -1000; E_max := 1000 |}
      (SegmentState 0 500) 3 1 []
    = Done (fraction (hits (SegmentState 0 500) ds) 3, [] ++ d1 :: ds) /\
    test (R := Minstd.random) {| E_min := -1000; E_max := 1000 |}
      (InverseState.create (Some (SegmentState 0 500))) 3 1 []
    = Done (fraction (3 - hits (SegmentState 0 500) ds) 3, [] ++ d1 :: ds).
Proof.
  apply (test_inverse_counts_complement (R := Minstd.random)
           {| E_min := -1000; E_max := 1000 |} (SegmentState 0 500) 3 1 []).
  - unfold uint_max. lia.
  - reflexivity.
Defined.

(** X17. Inclusion and exclusion: over the same draws, the count that
    [test] divides for a union is the sum of the counts of the two
    operands less the count of their intersection. *)
Theorem test_unify_inclusion_exclusion
    {R : UniformRandom} (self : ProbabilityTest) (a b : IState)
    (n seed : Z) (log : list Z) :
  0 <= n < uint_max ->
  well_formed a = true -> well_formed b = true ->
  exists d1 ds,
    fst (draws (E_min self) (E_max self) (seed_engine seed) (S (Z.to_nat n)))
    = d1 :: ds /\
    test self (UnifyState a b) n seed log
    = Done (fraction (hits a ds + hits b ds
                      - hits (IntersectState.create (Some a) (Some b)) ds) n,
            log ++ d1 :: ds).
Proof.
  intros Hn Ha Hb.
  destruct (test_spec self n seed log Hn (UnifyState a b))
    as (d1 & ds & Hdraws & _ & ->).
  exists d1, ds. split; [exact Hdraws|].
  rewrite tally_well_formed by (simpl; now rewrite Ha, Hb).
  pose proof (hits_unify_intersect a b ds Ha Hb) as Hie.
  simpl. do 2 f_equal. f_equal. lia.
Qed.

Lemma test_unify_inclusion_exclusion_witness :
  exists d1 ds,
    fst (draws (R := Minstd.random) (-10) 10 (seed_engine 7) 5) = d1 :: ds /\
    test (R := Minstd.random) {| E_min := -10; E_max := 10 |}
      (UnifyState (SegmentState (-5) 2) (SegmentState 0 8)) 4 7 []
    = Done (fraction (hits (SegmentState (-5) 2) ds + hits (SegmentState 0 8) ds
                      - hits (IntersectState.create (Some (SegmentState (-5) 2))
                                (Some (SegmentState 0 8))) ds) 4,
            [] ++ d1 :: ds).
Proof.
  apply (test_unify_inclusion_exclusion (R := Minstd.random)
           {| E_min := -10; E_max := 10 |}
           (SegmentState (-5) 2) (SegmentState 0 8) 4 7 []).
  - unfold uint_max. lia.
  - reflexivity.
  - reflexivity.
Defined.

(** X18. A larger state never gets a smaller estimate: if every value of
    the sampling range that [p] contains is also in [q], then over the
    same seed and sample count the value [test] returns for [p] is at most
    the one it returns for [q]. *)
Theorem test_monotone
    {R : UniformRandom} `{!UniformRandomInRange R}
    (self : ProbabilityTest) (p q : IState) (n seed : Z) (log : list Z) :
  E_min self <= E_max self ->
  1 <= n < uint_max ->
  well_formed p = true -> well_formed q = true ->
  (forall v, E_min self <= v <= E_max self ->
             member p v = true -> member q v = true) ->
  exists rp rq ds,
    test self p n seed log = Done (rp, log ++ ds) /\
    test self q n seed log = Done (rq, log ++ ds) /\
    Float32.leb rp rq = true.
Proof.
  intros Hrange Hn Hp Hq Hsub.
  destruct (test_spec self n seed log ltac:(lia) p) as (d1 & ds & Hdraws & Hlen & Htp).
  destruct (test_spec self n seed log ltac:(lia) q) as (d1' & ds' & Hdraws' & _ & Htq).
  rewrite Hdraws in Hdraws'. injection Hdraws' as <- <-.
  rewrite (tally_well_formed p ds Hp) in Htp.
  rewrite (tally_well_formed q ds Hq) in Htq.
  exists (fraction (0 + hits p ds) n), (fraction (0 + hits q ds) n), (d1 :: ds).
  split; [exact Htp|]. split; [exact Htq|].
  pose proof (draws_in_range (E_min self) (E_max self) (S (Z.to_nat n)) Hrange
                (seed_engine seed)) as Hin.
  rewrite Hdraws in Hin. apply Forall_inv_tail in Hin.
  assert (hits p ds <= hits q ds) as Hhits.
  { apply hits_mono. intros v Hv. apply Hsub. revert v Hv. now apply Forall_forall. }
  pose proof (hits_bounds p ds). pose proof (hits_bounds q ds).
  unfold uint_max in Hn.
  apply fraction_mono; [lia | lia | exact Hn].
Qed.

Lemma test_monotone_witness :
  exists rp rq ds,
    test (R := Minstd.random) {| E_min := -1000; E_max := 1000 |}
      (SegmentState 0 100) 5 1 [] = Done (rp, [] ++ ds) /\
    test (R := Minstd.random) {| E_min := -1000; E_max := 1000 |}
      (SegmentState 0 500) 5 1 [] = Done (rq, [] ++ ds) /\
    Float32.leb rp rq = true.
Proof.
  apply (test_monotone (R := Minstd.random)
           {| E_min := -1000; E_max := 1000 |}
           (SegmentState 0 100) (SegmentState 0 500) 5 1 []).
  - simpl. lia.
  - unfold uint_max. lia.
  - reflexivity.
  - reflexivity.
  - intros v _. unfold member. simpl. rewrite !Z.geb_leb, !andb_true_iff, !Z.leb_le.
    lia.
Defined.

(** * Objects, pointers and destruction *)

Lemma release_app (fp1 fp2 : list addr) (h : heap) :
  release (fp1 ++ fp2) h = release fp2 (release fp1 h).
Proof. apply fold_left_app. Qed.

Lemma release_out (fp : list addr) :
  forall (h : heap) (x : addr), ~ In x fp -> release fp h x = h x.
Proof.
  induction fp as [|a fp IH]; intros h x Hx; [reflexivity|].
  simpl in *. rewrite IH by tauto. unfold free.
  destruct (Nat.eqb_spec x a); [subst; tauto | reflexivity].
Qed.

Lemma release_in (fp : list addr) :
  forall (h : heap) (x : addr), In x fp -> release fp h x = None.
Proof.
  induction fp as [|a fp IH]; intros h x Hx; [destruct Hx|].
  simpl. destruct (in_dec Nat.eq_dec x fp) as [Hin | Hout].
  - now apply IH.
  - rewrite release_out by assumption. unfold free.
    destruct Hx as [-> | Hx]; [now rewrite Nat.eqb_refl | contradiction].
Qed.

Lemma owned_root (h : heap) (a : addr) (fp : list addr) :
  owned h (Some a) fp -> In a fp.
Proof.
  inversion 1; subst; simpl; auto; apply in_or_app; right;
    try (apply in_or_app; right); now left.
Qed.

(** Deleting an owned tree: the statement is kept for every heap that
    agrees with [h] on the tree, so that it applies again after a sibling
    tree is gone. *)
Lemma delete_owned_frame (h : heap) (p : option addr) (fp : list addr) :
  owned h p fp ->
  forall (h' : heap) (fuel : nat),
    (forall x, In x fp -> h' x = h x) ->
    (length fp <= fuel)%nat ->
    delete fuel p h' = Ok (release fp h').
Proof.
  induction 1 as [ | a s0 Ha | a b e Ha | a f g Ha
                 | a base fp Ha Hown IH Hnotin
                 | a f g fp1 fp2 Ha Hf IHf Hg IHg Hdisj Hnotin ];
    intros h' fuel Hagree Hfuel.
  - destruct fuel; reflexivity.
  - destruct fuel as [|k]; [simpl in Hfuel; lia|].
    simpl. rewrite (Hagree a), Ha by (now left). reflexivity.
  - destruct fuel as [|k]; [simpl in Hfuel; lia|].
    simpl. rewrite (Hagree a), Ha by (now left). reflexivity.
  - destruct fuel as [|k]; [simpl in Hfuel; lia|].
    simpl. rewrite (Hagree a), Ha by (now left). reflexivity.
  - rewrite length_app in Hfuel. simpl in Hfuel.
    destruct fuel as [|k]; [lia|].
    simpl. rewrite (Hagree a), Ha by (apply in_or_app; right; now left).
    simpl. rewrite (IH h' k); [| intros x Hx; apply Hagree, in_or_app; now left | lia].
    simpl. now rewrite release_app.
  - rewrite !length_app in Hfuel. simpl in Hfuel.
    destruct fuel as [|k]; [lia|].
    simpl.
    rewrite (Hagree a), Ha by (apply in_or_app; right; apply in_or_app; right; now left).
    simpl.
    rewrite (IHf h' k);
      [| intros x Hx; apply Hagree, in_or_app; now left | lia].
    simpl.
    rewrite (IHg (release fp1 h') k); [| | lia].
    + simpl. now rewrite !release_app.
    + intros x Hx. rewrite release_out by (intros Hx1; exact (Hdisj x Hx1 Hx)).
      apply Hagree, in_or_app. right. apply in_or_app. now left.
Qed.

(** X19. Deleting a pointer to a tree of owned objects completes and ends
    the lives of exactly the objects of the tree, each once: afterwards
    the addresses of the tree hold nothing and every other object is as
    before; in particular the operands a [UnifyState] refers to are left
    alive.  Deleting the null pointer changes nothing. *)
Theorem delete_owned (h : heap) (p : option addr) (fp : list addr) (fuel : nat) :
  owned h p fp ->
  (length fp <= fuel)%nat ->
  exists h',
    delete fuel p h = Ok h' /\
    forall x, h' x = if in_dec Nat.eq_dec x fp then None else h x.
Proof.
  intros Hown Hfuel. exists (release fp h). split.
  - now apply (delete_owned_frame h p fp Hown).
  - intros x. destruct (in_dec Nat.eq_dec x fp).
    + now apply release_in.
    + now apply release_out.
Qed.

Lemma delete_owned_witness :
  let h := alloc 3%nat (OInverse (Some 2%nat))
             (alloc 2%nat (OUnify 0%nat 1%nat)
                (alloc 1%nat (ODiscrete 5) (alloc 0%nat (ODiscrete (-5)) empty_heap))) in
  exists h',
    delete 2%nat (Some 3%nat) h = Ok h' /\
    forall x, h' x = if in_dec Nat.eq_dec x [2%nat; 3%nat] then None else h x.
Proof.
  intros h. apply (delete_owned h (Some 3%nat) ([2%nat] ++ [3%nat]) 2%nat).
  - apply (owned_inverse h 3%nat (Some 2%nat) [2%nat]).
    + reflexivity.
    + apply (owned_unify h 2%nat 0%nat 1%nat). reflexivity.
    + simpl. intros [H | []]. discriminate.
  - simpl. lia.
Defined.

(** X20. One object given twice to [IntersectState::create] is deleted
    twice: destroying the intersection deletes [first], which ends the
    life of the object, and then deletes [second], the same object. *)
Theorem delete_shared_operand_twice
    (h : heap) (a p : addr) (fp : list addr) (fuel : nat) :
  h a = Some (OIntersect (Some p) (Some p)) ->
  owned h (Some p) fp ->
  (length fp < fuel)%nat ->
  delete fuel (Some a) h = Fault Dangling.
Proof.
  intros Ha Hown Hfuel.
  pose proof (owned_root h p fp Hown) as Hroot.
  destruct fuel as [|k]; [lia|].
  simpl. rewrite Ha. simpl.
  rewrite (delete_owned_frame h (Some p) fp Hown h k) by (auto; lia).
  simpl. destruct k as [|k].
  - destruct fp; [destruct Hroot | simpl in Hfuel; lia].
  - simpl. now rewrite (release_in fp h p Hroot).
Qed.

Lemma delete_shared_operand_twice_witness :
  delete 2%nat (Some 1%nat)
    (alloc 1%nat (OIntersect (Some 0%nat) (Some 0%nat))
       (alloc 0%nat (OSegment 0 500) empty_heap))
  = Fault Dangling.
Proof.
  apply (delete_shared_operand_twice _ 1%nat 0%nat [0%nat] 2%nat).
  - reflexivity.
  - apply (owned_segment _ 0%nat 0 500). reflexivity.
  - simpl. lia.
Defined.

(** X21. A [UnifyState] does not keep its operands alive: once a tree
    that contains its first operand has been deleted, evaluating
    [contains] on the union uses an object that is gone. *)
Theorem contains_after_delete_dangles
    (h : heap) (p : option addr) (fp : list addr)
    (u f g : addr) (s : State) (fuel : nat) :
  owned h p fp ->
  h u = Some (OUnify f g) ->
  In f fp -> ~ In u fp ->
  (length fp <= fuel)%nat -> (2 <= fuel)%nat ->
  exists h',
    delete fuel p h = Ok h' /\
    contains_at fuel h' u s = Fault Dangling.
Proof.
  intros Hown Hu Hf Hnu Hfuel H2. exists (release fp h). split.
  - now apply (delete_owned_frame h p fp Hown).
  - destruct fuel as [|[|k]]; try lia.
    cbn [contains_at].
    rewrite (release_out fp h u Hnu), Hu, (release_in fp h f Hf). reflexivity.
Qed.

Lemma contains_after_delete_dangles_witness :
  let h := alloc 2%nat (OUnify 0%nat 1%nat)
             (alloc 1%nat (ODiscrete 5) (alloc 0%nat (ODiscrete (-5)) empty_heap)) in
  exists h',
    delete 2%nat (Some 0%nat) h = Ok h' /\
    contains_at 2%nat h' 2%nat 5 = Fault Dangling.
Proof.
  intros h.
  apply (contains_after_delete_dangles h (Some 0%nat) [0%nat] 2%nat 0%nat 1%nat 5 2%nat).
  - apply (owned_discrete h 0%nat (-5)). reflexivity.
  - reflexivity.
  - now left.
  - simpl. intros [H | []]. discriminate.
  - simpl. lia.
  - lia.
Defined.

Lemma contains_at_sound (h : heap) (s : State) (st : IState) :
  forall (a : addr) (fuel : nat),
    represents h a st ->
    (height st <= fuel)%nat ->
    contains_at fuel h a s = to_outcome (contains st s).
Proof.
  induction st as [s0 | b e | | base IH | f g IHf IHg | f g IHf IHg]
    using IState_induction;
    intros a fuel Hrep Hfuel; inversion Hrep; subst;
    (destruct fuel as [|k]; [simpl in Hfuel; lia|]);
    cbn [contains_at contains height] in *;
    match goal with H : h a = Some _ |- _ => rewrite H end.
  - reflexivity.
  - reflexivity.
  - match goal with H : represents_ptr _ _ None |- _ => inversion H; subst end.
    reflexivity.
  - match goal with H : represents_ptr _ _ (Some _) |- _ => inversion H; subst end.
    rewrite (IH _ k) by (assumption || lia).
    destruct (contains base s); reflexivity.
  - repeat match goal with
           | H : represents_ptr _ _ _ |- _ => inversion H; subst; clear H
           end; try reflexivity.
    + rewrite (IHf _ eq_refl _ k) by (assumption || lia).
      destruct (contains _ s) as [[|] | |]; reflexivity.
    + rewrite (IHf _ eq_refl _ k) by (assumption || lia).
      destruct (contains _ s) as [[|] | |]; cbn [obind to_outcome rbind];
        try reflexivity.
      apply IHg; [reflexivity | assumption | lia].
  - rewrite (IHf _ k) by (assumption || lia).
    destruct (contains f s) as [[|] | |]; cbn [obind to_outcome rbind];
      try reflexivity.
    apply IHg; [assumption | lia].
Qed.

(** X22. Evaluating [contains] through the pointers agrees with
    evaluating the state the objects spell out: for objects laid out as
    the state [st], sub-objects possibly shared, and a call depth of at
    least the height of [st], the outcome at the root is the outcome of
    [contains st], a null pointer included. *)
Theorem contains_at_represents
    (h : heap) (s : State) (st : IState) (a : addr) (fuel : nat) :
  represents h a st ->
  (height st <= fuel)%nat ->
  contains_at fuel h a s = to_outcome (contains st s).
Proof. apply contains_at_sound. Qed.

Lemma contains_at_represents_witness :
  let h := alloc 2%nat (OIntersect (Some 1%nat) (Some 1%nat))
             (alloc 1%nat (OInverse (Some 0%nat))
                (alloc 0%nat (ODiscrete 7) empty_heap)) in
  let st := InverseState.create (Some (DiscreteState 7)) in
  contains_at 3%nat h 2%nat 4
  = to_outcome (contains (IntersectState.create (Some st) (Some st)) 4).
Proof.
  intros h st. apply contains_at_represents.
  - assert (represents h 1%nat st) as Hst.
    { apply (rep_inverse h 1%nat (Some 0%nat)); [reflexivity|].
      apply rep_some. now apply rep_discrete. }
    apply (rep_intersect h 2%nat (Some 1%nat) (Some 1%nat)); [reflexivity | |];
      now apply rep_some.
  - simpl. lia.
Defined.

(** ** Construction and destruction *)

Section BuildFacts.
Local Open Scope nat_scope.

Lemma alloc_same (a : nat) (o : object) (h : heap) : alloc a o h a = Some o.
Proof. unfold alloc. now rewrite Nat.eqb_refl. Qed.

Lemma alloc_other (a x : nat) (o : object) (h : heap) :
  x <> a -> alloc a o h x = h x.
Proof. unfold alloc. intros Hx. now destruct (Nat.eqb_spec x a). Qed.

Lemma seq_snoc (lo hi : nat) :
  lo <= hi -> seq lo (S hi - lo) = seq lo (hi - lo) ++ [hi].
Proof.
  intros Hle. replace (S hi - lo) with (S (hi - lo)) by lia.
  rewrite seq_S. do 2 f_equal. lia.
Qed.

Lemma seq_split (lo mid hi : nat) :
  lo <= mid <= hi ->
  seq lo (hi - lo) = seq lo (mid - lo) ++ seq mid (hi - mid).
Proof.
  intros Hle. replace (hi - lo) with ((mid - lo) + (hi - mid)) by lia.
  rewrite seq_app. do 2 f_equal. lia.
Qed.

Lemma build_built (st : IState) :
  forall m, built st m (fst (build st m)) (snd (build st m)).
Proof.
  induction st as [s0 | b e | | base IH | f g IHf IHg | f g IHf IHg]
    using IState_induction; intros m.
  - (* DiscreteState *)
    simpl. repeat split; cbn [next objects] in *; try lia.
    + intros x Hx. apply alloc_other. lia.
    + apply rep_discrete. rewrite H by lia. apply alloc_same.
    + intros _. replace (S (next m) - next m) with 1 by lia.
      apply (owned_discrete h (next m) s0). rewrite H by lia. apply alloc_same.
  - (* SegmentState *)
    simpl. repeat split; cbn [next objects] in *; try lia.
    + intros x Hx. apply alloc_other. lia.
    + apply rep_segment. rewrite H by lia. apply alloc_same.
    + intros _. replace (S (next m) - next m) with 1 by lia.
      apply (owned_segment h (next m) b e). rewrite H by lia. apply alloc_same.
  - (* InverseState, null *)
    simpl. repeat split; cbn [next objects] in *; try lia.
    + intros x Hx. apply alloc_other. lia.
    + apply (rep_inverse h (next m) None None); [|constructor].
      rewrite H by lia. apply alloc_same.
    + intros _. replace (S (next m) - next m) with 1 by lia.
      apply (owned_inverse h (next m) None []); [| constructor | intros []].
      rewrite H by lia. apply alloc_same.
  - (* InverseState *)
    specialize (IH m). simpl. destruct (build base m) as [pb m1].
    destruct IH as (Hnext & Hle & Hframe & Hshape). simpl in *.
    repeat split; cbn [next objects] in *; try lia.
    + intros x Hx. rewrite alloc_other by lia. apply Hframe. lia.
    + destruct (Hshape h) as [Hrep _].
      { intros x Hx. rewrite H by lia. apply alloc_other. lia. }
      apply (rep_inverse h (next m1) (Some pb)); [|now constructor].
      rewrite H by lia. apply alloc_same.
    + intros Hfree. destruct (Hshape h) as [_ Hown].
      { intros x Hx. rewrite H by lia. apply alloc_other. lia. }
      rewrite seq_snoc by lia.
      apply (owned_inverse h (next m1) (Some pb)); [| now apply Hown |].
      * rewrite H by lia. apply alloc_same.
      * rewrite in_seq. lia.
  - (* IntersectState *)
    simpl.
    assert (exists pf m1,
      match f with
      | None => (None, m)
      | Some f' => let (a, m') := build f' m in (Some a, m')
      end = (pf, m1) /\
      next m <= next m1 /\
      (forall x, x < next m \/ next m1 <= x -> objects m1 x = objects m x) /\
      (forall h : heap,
         (forall x, next m <= x < next m1 -> h x = objects m1 x) ->
         represents_ptr h pf f /\
         (match f with None => true | Some f' => unify_free f' end = true ->
          owned h pf (seq (next m) (next m1 - next m))))) as (pf & m1 & -> & Hle1 & Hfr1 & Hsh1).
    { destruct f as [f'|].
      - specialize (IHf f' eq_refl m). destruct (build f' m) as [a m'].
        destruct IHf as (Hnext & Hle & Hframe & Hshape). simpl in *.
        exists (Some a), m'. repeat split; try lia; try assumption.
        + constructor. now apply Hshape.
        + now apply Hshape.
      - exists None, m. repeat split; try lia; try constructor.
        intros _. rewrite Nat.sub_diag. constructor. }
    assert (exists pg m2,
      match g with
      | None => (None, m1)
      | Some g' => let (a, m') := build g' m1 in (Some a, m')
      end = (pg, m2) /\
      next m1 <= next m2 /\
      (forall x, x < next m1 \/ next m2 <= x -> objects m2 x = objects m1 x) /\
      (forall h : heap,
         (forall x, next m1 <= x < next m2 -> h x = objects m2 x) ->
         represents_ptr h pg g /\
         (match g with None => true | Some g' => unify_free g' end = true ->
          owned h pg (seq (next m1) (next m2 - next m1))))) as (pg & m2 & -> & Hle2 & Hfr2 & Hsh2).
    { destruct g as [g'|].
      - specialize (IHg g' eq_refl m1). destruct (build g' m1) as [a m'].
        destruct IHg as (Hnext & Hle & Hframe & Hshape). simpl in *.
        exists (Some a), m'. repeat split; try lia; try assumption.
        + constructor. now apply Hshape.
        + now apply Hshape.
      - exists None, m1. repeat split; try lia; try constructor.
        intros _. rewrite Nat.sub_diag. constructor. }
    simpl. repeat split; cbn [next objects] in *; try lia.
    + intros x Hx. rewrite alloc_other by lia.
      rewrite Hfr2 by lia. apply Hfr1. lia.
    + destruct (Hsh1 h) as [Hrf _].
      { intros x Hx. rewrite H by lia. rewrite alloc_other by lia.
        apply Hfr2. lia. }
      destruct (Hsh2 h) as [Hrg _].
      { intros x Hx. rewrite H by lia. apply alloc_other. lia. }
      apply (rep_intersect h (next m2) pf pg); try assumption.
      rewrite H by lia. apply alloc_same.
    + intros Hfree. apply andb_true_iff in Hfree as [Hff Hfg].
      destruct (Hsh1 h) as [_ Hof].
      { intros x Hx. rewrite H by lia. rewrite alloc_other by lia.
        apply Hfr2. lia. }
      destruct (Hsh2 h) as [_ Hog].
      { intros x Hx. rewrite H by lia. apply alloc_other. lia. }
      rewrite seq_snoc by lia.
      rewrite (seq_split (next m) (next m1) (next m2)) by lia.
      rewrite <- app_assoc.
      apply (owned_intersect h (next m2) pf pg); auto.
      * rewrite H by lia. apply alloc_same.
      * intros x. rewrite !in_seq. lia.
      * rewrite in_app_iff, !in_seq. lia.
  - (* UnifyState *)
    specialize (IHf m). simpl. destruct (build f m) as [pf m1].
    specialize (IHg m1). destruct (build g m1) as [pg m2].
    destruct IHf as (Hn1 & Hle1 & Hfr1 & Hsh1).
    destruct IHg as (Hn2 & Hle2 & Hfr2 & Hsh2). simpl in *.
    repeat split; cbn [next objects] in *; try lia; try discriminate.
    + intros x Hx. rewrite alloc_other by lia.
      rewrite Hfr2 by lia. apply Hfr1. lia.
    + destruct (Hsh1 h) as [Hrf _].
      { intros x Hx. rewrite H by lia. rewrite alloc_other by lia.
        apply Hfr2. lia. }
      destruct (Hsh2 h) as [Hrg _].
      { intros x Hx. rewrite H by lia. apply alloc_other. lia. }
      apply (rep_unify h (next m2) pf pg); try assumption.
      rewrite H by lia. apply alloc_same.
Qed.
End BuildFacts.

(** X23. The objects that [build] allocates for a state evaluate, through
    their pointers, exactly as the state does: [contains] at the root of
    the built structure, with a call depth of the height of the state, has
    the outcome of [contains] on the state. *)
Theorem build_contains (st : IState) (m : store) (s : State) :
  contains_at (height st) (objects (snd (build st m))) (fst (build st m)) s
  = to_outcome (contains st s).
Proof.
  destruct (build_built st m) as (_ & _ & _ & Hshape).
  apply contains_at_sound; [|apply Nat.le_refl].
  now apply Hshape.
Qed.

(** X24. Construction and destruction undo each other: for a state held
    together by owning pointers, built in a store where nothing lives
    from [next] on, deleting the root completes and leaves every address
    as it was before the construction; nothing is leaked and nothing is
    deleted twice. *)
Theorem build_delete_roundtrip (st : IState) (m : store) (fuel : nat) :
  unify_free st = true ->
  (forall x, (next m <= x)%nat -> objects m x = None) ->
  (next (snd (build st m)) - next m <= fuel)%nat ->
  exists h',
    delete fuel (Some (fst (build st m))) (objects (snd (build st m))) = Ok h' /\
    forall x, h' x = objects m x.
Proof.
  intros Hfree Hunused Hfuel.
  destruct (build_built st m) as (Hnext & Hle & Hframe & Hshape).
  destruct (Hshape (objects (snd (build st m))) (fun _ _ => eq_refl))
    as [_ Hown].
  specialize (Hown Hfree).
  eexists. split.
  - apply (delete_owned_frame _ _ _ Hown); [reflexivity|].
    now rewrite length_seq.
  - intros x.
    destruct (in_dec Nat.eq_dec x (seq (next m) (next (snd (build st m)) - next m)))
      as [Hin | Hout].
    + rewrite release_in by assumption. symmetry. apply Hunused.
      apply in_seq in Hin. lia.
    + rewrite release_out by assumption. apply Hframe.
      rewrite in_seq in Hout. lia.
Qed.

Lemma build_delete_roundtrip_witness :
  let st := IntersectState.create
              (Some (InverseState.create (Some (SegmentState 0 500))))
              (Some (DiscreteState 7)) in
  let m := {| objects := empty_heap; next := 0%nat |} in
  exists h',
    delete 4%nat (Some (fst (build st m))) (objects (snd (build st m))) = Ok h' /\
    forall x, h' x = objects m x.
Proof.
  intros st m. apply (build_delete_roundtrip st m 4%nat).
  - reflexivity.
  - reflexivity.
  - simpl. lia.
Defined.

(** X25. Assignment changes a state in place: after
    [DiscreteState::operator=] or [SegmentState::operator=] the left
    object evaluates as the right one, every other object is untouched,
    and an [InverseState] whose base is the left object evaluates from
    then on as the inverse of the right one. *)
Theorem assign_is_seen_through_pointers
    (h : heap) (a b i : addr) (s : State) :
  h i = Some (OInverse (Some a)) ->
  (forall s1 s2,
     h a = Some (ODiscrete s1) -> h b = Some (ODiscrete s2) ->
     exists h',
       DiscreteState_assign a b h = Ok h' /\
       (forall x, x <> a -> h' x = h x) /\
       contains_at 1%nat h' a s = Ok (s =? s2) /\
       contains_at 2%nat h' i s = Ok (negb (s =? s2))) /\
  (forall b1 e1 b2 e2,
     h a = Some (OSegment b1 e1) -> h b = Some (OSegment b2 e2) ->
     exists h',
       SegmentState_assign a b h = Ok h' /\
       (forall x, x <> a -> h' x = h x) /\
       contains_at 1%nat h' a s = Ok ((b2 <=? s) && (e2 >=? s)) /\
       contains_at 2%nat h' i s = Ok (negb ((b2 <=? s) && (e2 >=? s)))).
Proof.
  intros Hi. split.
  - intros s1 s2 Ha Hb.
    assert (i <> a) as Hia by (intros ->; congruence).
    exists (alloc a (ODiscrete s2) h).
    unfold DiscreteState_assign. rewrite Ha, Hb.
    split; [reflexivity|]. split; [intros x Hx; now apply alloc_other|].
    split.
    + cbn [contains_at]. now rewrite alloc_same.
    + cbn [contains_at]. rewrite (alloc_other a i) by assumption.
      rewrite Hi, alloc_same. reflexivity.
  - intros b1 e1 b2 e2 Ha Hb.
    assert (i <> a) as Hia by (intros ->; congruence).
    exists (alloc a (OSegment b2 e2) h).
    unfold SegmentState_assign. rewrite Ha, Hb.
    split; [reflexivity|]. split; [intros x Hx; now apply alloc_other|].
    split.
    + cbn [contains_at]. now rewrite alloc_same.
    + cbn [contains_at]. rewrite (alloc_other a i) by assumption.
      rewrite Hi, alloc_same. reflexivity.
Qed.

Lemma assign_is_seen_through_pointers_witness :
  let h := alloc 2%nat (OInverse (Some 0%nat))
             (alloc 1%nat (ODiscrete 9) (alloc 0%nat (ODiscrete 4) empty_heap)) in
  exists h',
    DiscreteState_assign 0%nat 1%nat h = Ok h' /\
    (forall x, x <> 0%nat -> h' x = h x) /\
    contains_at 1%nat h' 0%nat 9 = Ok (9 =? 9) /\
    contains_at 2%nat h' 2%nat 9 = Ok (negb (9 =? 9)).
Proof.
  intros h.
  apply (proj1 (assign_is_seen_through_pointers h 0%nat 1%nat 2%nat 9 eq_refl)
           4 9); reflexivity.
Defined.
